(** * The AI stream pipeline of [packages/core/streams/ai-stream.ts]

    A shallow embedding of the five functions of the file
    ([createEventStreamTransformer], [createCallbacksTransformer],
    [trimStartOfStreamHelper], [AIStream] with [createEmptyReadableStream],
    and [readableFromAsyncIterable]) together with the part of the platform
    they run on: JavaScript strings as sequences of UTF-16 code units,
    [TextEncoder]/[TextDecoder], and the state machine of WHATWG streams
    that decides when the callbacks of an underlying source or transformer
    are called.

    Layout: definitions first (strings, UTF-8, server-sent events, the two
    transformers, the trim helper, the orchestrator, the iterable adapter),
    then the lemmas and the theorems about them. *)

From Stdlib Require Import List NArith Bool Arith Lia.
From Stdlib.Strings Require Import String Ascii Byte.
Import ListNotations.

Set Implicit Arguments.
Local Open Scope N_scope.
Local Open Scope string_scope.
Local Open Scope list_scope.

(* ================================================================= *)
(** ** JavaScript strings *)

(** A JavaScript string is a sequence of 16-bit code units.  [s + t] is
    [s ++ t], the empty string is the only falsy string, and [===] on
    strings compares code units. *)
Definition jsstring := list N.

Definition code_unit_of_ascii (c : ascii) : N := N_of_ascii c.

(** ASCII literals of the source, as code units. *)
Definition js (s : string) : jsstring :=
  map code_unit_of_ascii (list_ascii_of_string s).

Fixpoint jseqb (s t : jsstring) : bool :=
  match s, t with
  | [], [] => true
  | c :: s', d :: t' => N.eqb c d && jseqb s' t'
  | _, _ => false
  end.

(** [if (text)]: a string is truthy when it is not empty. *)
Definition truthy (s : jsstring) : bool :=
  match s with [] => false | _ :: _ => true end.

Fixpoint starts_with (s prefix : jsstring) : bool :=
  match prefix, s with
  | [], _ => true
  | p :: prefix', c :: s' => N.eqb p c && starts_with s' prefix'
  | _ :: _, [] => false
  end.

(** [s.includes(sub)] *)
Fixpoint includes (s sub : jsstring) : bool :=
  starts_with s sub ||
  match s with
  | [] => false
  | _ :: s' => includes s' sub
  end.

(** WhiteSpace and LineTerminator code points of ECMAScript, the set
    [String.prototype.trimStart] removes. *)
Definition is_js_whitespace (c : N) : bool :=
  (N.leb 9 c && N.leb c 13) || N.eqb c 32 || N.eqb c 160 || N.eqb c 5760
  || (N.leb 8192 c && N.leb c 8202) || N.eqb c 8232 || N.eqb c 8233
  || N.eqb c 8239 || N.eqb c 8287 || N.eqb c 12288 || N.eqb c 65279.

Fixpoint trimStart (s : jsstring) : jsstring :=
  match s with
  | [] => []
  | c :: s' => if is_js_whitespace c then trimStart s' else s
  end.

(* ================================================================= *)
(** ** UTF-8: [TextEncoder.encode] and [TextDecoder.decode] *)

Definition byteN (n : N) : byte :=
  match Byte.of_N n with Some b => b | None => x00 end.

Definition is_high_surrogate (c : N) : bool := N.leb 55296 c && N.leb c 56319.
Definition is_low_surrogate (c : N) : bool := N.leb 56320 c && N.leb c 57343.

(** The code point of a surrogate pair. *)
Definition pair_code_point (hi lo : N) : N :=
  65536 + (hi - 55296) * 1024 + (lo - 56320).

(** UTF-8 bytes of one scalar value. *)
Definition utf8_of_code_point (cp : N) : list byte :=
  if N.ltb cp 128 then [byteN cp]
  else if N.ltb cp 2048 then
    [byteN (N.lor 192 (N.shiftr cp 6)); byteN (N.lor 128 (N.land cp 63))]
  else if N.ltb cp 65536 then
    [byteN (N.lor 224 (N.shiftr cp 12));
     byteN (N.lor 128 (N.land (N.shiftr cp 6) 63));
     byteN (N.lor 128 (N.land cp 63))]
  else
    [byteN (N.lor 240 (N.shiftr cp 18));
     byteN (N.lor 128 (N.land (N.shiftr cp 12) 63));
     byteN (N.lor 128 (N.land (N.shiftr cp 6) 63));
     byteN (N.lor 128 (N.land cp 63))].

Definition replacement : N := 65533.

(** [new TextEncoder().encode(s)]: the string is first made a sequence of
    scalar values (a surrogate pair becomes its code point, a surrogate
    without its partner becomes U+FFFD), then each one is written in
    UTF-8. *)
Fixpoint TextEncoder_encode (s : jsstring) : list byte :=
  match s with
  | [] => []
  | c :: t =>
      if is_high_surrogate c then
        match t with
        | d :: t' =>
            if is_low_surrogate d
            then utf8_of_code_point (pair_code_point c d) ++ TextEncoder_encode t'
            else utf8_of_code_point replacement ++ TextEncoder_encode t
        | [] => utf8_of_code_point replacement
        end
      else if is_low_surrogate c
      then utf8_of_code_point replacement ++ TextEncoder_encode t
      else utf8_of_code_point c ++ TextEncoder_encode t
  end.

(** Code units of one scalar value. *)
Definition code_units_of (cp : N) : jsstring :=
  if N.ltb cp 65536 then [cp]
  else [55296 + N.shiftr (cp - 65536) 10; 56320 + N.land (cp - 65536) 1023].

(** State of the UTF-8 decoder of the Encoding standard. *)
Record Utf8Decoder := {
  code_point : N;
  bytes_seen : N;
  bytes_needed : N;
  lower_boundary : N;
  upper_boundary : N
}.

Definition utf8_decoder_init : Utf8Decoder :=
  {| code_point := 0; bytes_seen := 0; bytes_needed := 0;
     lower_boundary := 128; upper_boundary := 191 |}.

(** A byte read while no sequence is open. *)
Definition utf8_lead (b : N) : Utf8Decoder * list N :=
  if N.leb b 127 then (utf8_decoder_init, [b])
  else if N.leb 194 b && N.leb b 223 then
    ({| code_point := N.land b 31; bytes_seen := 0; bytes_needed := 1;
        lower_boundary := 128; upper_boundary := 191 |}, [])
  else if N.leb 224 b && N.leb b 239 then
    ({| code_point := N.land b 15; bytes_seen := 0; bytes_needed := 2;
        lower_boundary := if N.eqb b 224 then 160 else 128;
        upper_boundary := if N.eqb b 237 then 159 else 191 |}, [])
  else if N.leb 240 b && N.leb b 244 then
    ({| code_point := N.land b 7; bytes_seen := 0; bytes_needed := 3;
        lower_boundary := if N.eqb b 240 then 144 else 128;
        upper_boundary := if N.eqb b 244 then 143 else 191 |}, [])
  else (utf8_decoder_init, [replacement]).

(** One byte through the decoder: the new state and the scalar values
    emitted.  A byte that cannot continue the open sequence ends it with
    U+FFFD and is read again as a lead byte. *)
Definition utf8_step (d : Utf8Decoder) (b : N) : Utf8Decoder * list N :=
  if N.eqb (bytes_needed d) 0 then utf8_lead b
  else if negb (N.leb (lower_boundary d) b && N.leb b (upper_boundary d)) then
    let (d', out) := utf8_lead b in (d', replacement :: out)
  else
    let cp := N.lor (N.shiftl (code_point d) 6) (N.land b 63) in
    if N.eqb (bytes_seen d + 1) (bytes_needed d)
    then (utf8_decoder_init, [cp])
    else ({| code_point := cp; bytes_seen := bytes_seen d + 1;
             bytes_needed := bytes_needed d;
             lower_boundary := 128; upper_boundary := 191 |}, []).

(** The scalar values of a whole input; at the end of the input an open
    sequence gives one U+FFFD. *)
Fixpoint utf8_scalars (d : Utf8Decoder) (bs : list byte) : list N :=
  match bs with
  | [] => if N.eqb (bytes_needed d) 0 then [] else [replacement]
  | b :: bs' =>
      let (d', out) := utf8_step d (Byte.to_N b) in
      out ++ utf8_scalars d' bs'
  end.

(** A leading byte order mark is not part of the text. *)
Definition strip_bom (cps : list N) : list N :=
  match cps with
  | 65279 :: rest => rest
  | _ => cps
  end.

(** [new TextDecoder().decode(chunk)], without the [stream] option: every
    call decodes its argument on its own, from the initial state, and
    flushes at the end of the argument. *)
Definition TextDecoder_decode (chunk : list byte) : jsstring :=
  flat_map code_units_of (strip_bom (utf8_scalars utf8_decoder_init chunk)).

(** The bytes of an ASCII or UTF-8 literal. *)
Definition bytes (s : string) : list byte := list_byte_of_string s.

(* ================================================================= *)
(** ** Exceptions and effects *)

(** A thrown value, or the reason of a rejected promise or an errored
    stream.  [new Error(m)] is [Error m]; the platform's own failures are
    [TypeError]s. *)
Inductive JsError :=
| Error (message : jsstring)
| TypeError (message : jsstring).

Definition message_of (e : JsError) : jsstring :=
  match e with Error m => m | TypeError m => m end.

(** How a call ends: it returns (an awaited promise fulfils) or it throws
    (the promise rejects). *)
Inductive Completion (A : Type) :=
| Normal (a : A)
| Throw (e : JsError).
Arguments Throw {A} e.

(** Code that reads and writes a state [S] and may throw: a statement after
    a throwing one is not run, the state keeps what was done before. *)
Definition Eff (S A : Type) : Type := S -> Completion A * S.

Definition ret {S A} (a : A) : Eff S A := fun s => (Normal a, s).

Definition bind {S A B} (m : Eff S A) (k : A -> Eff S B) : Eff S B :=
  fun s =>
    match m s with
    | (Normal a, s') => k a s'
    | (Throw e, s') => (Throw e, s')
    end.

Definition modify {S} (f : S -> S) : Eff S unit := fun s => (Normal tt, f s).

Definition throw {S A} (e : JsError) : Eff S A := fun s => (Throw e, s).

(** The completion of a call that does not touch the state. *)
Definition lift {S A} (c : Completion A) : Eff S A := fun s => (c, s).

Notation "x <- m ;; k" := (bind m (fun x => k))
  (at level 61, m at next level, right associativity).
Notation "m ;; k" := (bind m (fun _ => k))
  (at level 61, right associativity).

(** [for (x of xs) await body(x)] *)
Fixpoint for_each {S A} (body : A -> Eff S unit) (xs : list A) : Eff S unit :=
  match xs with
  | [] => ret tt
  | x :: rest => body x ;; for_each body rest
  end.

(* ================================================================= *)
(** ** Server-sent events and the [eventsource-parser] interface *)

(** [ParsedEvent] of [eventsource-parser]: [type] is ['event'], [data] is
    always there, [id] and [event] may be missing. *)
Record ParsedEvent := {
  evt_id : option jsstring;
  event : option jsstring;
  data : jsstring
}.

(** What the parser hands to its callback:
    [ParsedEvent | ReconnectInterval]. *)
Inductive ParseEvent :=
| Event (e : ParsedEvent)
| ReconnectInterval (value : N).

(** Modelled from the spec: the SSE line-framing parser, the
    [eventsource-parser] package the file imports, is not part of the
    sources.  [createParser(onParse)] gives an object with a state of its
    own; [feed(text)] parses [text] after what it was fed before and calls
    [onParse] synchronously, once per complete event or retry interval, in
    the order of the text, and catches nothing: a throw of [onParse] leaves
    [feed].  The events of one [feed] are therefore given as a list, which
    the caller runs the callback over until it throws. *)
Record EventSourceParser := {
  parser_state : Type;
  createParser : parser_state;
  feed : parser_state -> jsstring -> parser_state * list ParseEvent
}.

(** The events dispatched when every chunk of a body is fed, each chunk
    decoded on its own as [transform] does. *)
Fixpoint dispatched (P : EventSourceParser) (p : parser_state P)
  (chunks : list (list byte)) : list ParseEvent :=
  match chunks with
  | [] => []
  | chunk :: rest =>
      let (p', evs) := feed P p (TextDecoder_decode chunk) in
      evs ++ dispatched P p' rest
  end.

(** *** A reference parser

    Modelled from the spec: "an SSE line-framing parser that recognizes
    [event:], [data:], blank-line event boundaries, and retry intervals per
    the SSE wire format".  It reads one code unit at a time, so what it
    dispatches does not depend on how the text is cut into [feed] calls.
    Lines end with LF, CR or CRLF; a line without a colon is a field with
    an empty value; one space after the colon is not part of the value; a
    blank line dispatches the event when it has data; [retry] takes a
    value made of decimal digits. *)
Record SseState := {
  line : jsstring;
  after_cr : bool;
  data_buffer : jsstring;
  event_name : jsstring;
  last_id : option jsstring
}.

Definition sse_init : SseState :=
  {| line := []; after_cr := false; data_buffer := [];
     event_name := []; last_id := None |}.

Fixpoint split_colon (l : jsstring) : jsstring * option jsstring :=
  match l with
  | [] => ([], None)
  | c :: rest =>
      if N.eqb c 58 then ([], Some rest)
      else let (f, v) := split_colon rest in (c :: f, v)
  end.

Definition field_value (v : option jsstring) : jsstring :=
  match v with
  | None => []
  | Some (32 :: rest) => rest
  | Some rest => rest
  end.

Definition is_digit (c : N) : bool := N.leb 48 c && N.leb c 57.

Definition decimal (v : jsstring) : N :=
  fold_left (fun acc c => 10 * acc + (c - 48)) v 0.

(** The end of a line: a blank line closes the event, another line sets a
    field. *)
Definition sse_end_line (s : SseState) : SseState * list ParseEvent :=
  match line s with
  | [] =>
      let s' := {| line := []; after_cr := after_cr s; data_buffer := [];
                   event_name := []; last_id := None |} in
      match data_buffer s with
      | [] => ({| line := []; after_cr := after_cr s; data_buffer := [];
                  event_name := []; last_id := last_id s |}, [])
      | _ :: _ =>
          (s', [Event {| evt_id := last_id s;
                         event := if truthy (event_name s)
                                  then Some (event_name s) else None;
                         data := removelast (data_buffer s) |}])
      end
  | l =>
      let (f, v) := split_colon l in
      let value := field_value v in
      let cleared d e i :=
        {| line := []; after_cr := after_cr s; data_buffer := d;
           event_name := e; last_id := i |} in
      if jseqb f (js "data") then
        (cleared (data_buffer s ++ value ++ [10]) (event_name s) (last_id s), [])
      else if jseqb f (js "event") then
        (cleared (data_buffer s) value (last_id s), [])
      else if jseqb f (js "id") then
        (cleared (data_buffer s) (event_name s)
           (if existsb (N.eqb 0) value then last_id s else Some value), [])
      else if jseqb f (js "retry") then
        (cleared (data_buffer s) (event_name s) (last_id s),
         if truthy value && forallb is_digit value
         then [ReconnectInterval (decimal value)] else [])
      else (cleared (data_buffer s) (event_name s) (last_id s), [])
  end.

Definition sse_char (s : SseState) (c : N) : SseState * list ParseEvent :=
  let with_cr b s0 :=
    {| line := line s0; after_cr := b; data_buffer := data_buffer s0;
       event_name := event_name s0; last_id := last_id s0 |} in
  if N.eqb c 10 then
    if after_cr s then (with_cr false s, [])
    else sse_end_line s
  else if N.eqb c 13 then
    let (s', evs) := sse_end_line (with_cr false s) in (with_cr true s', evs)
  else
    ({| line := line s ++ [c]; after_cr := false;
        data_buffer := data_buffer s; event_name := event_name s;
        last_id := last_id s |}, []).

Fixpoint sse_feed (s : SseState) (text : jsstring) : SseState * list ParseEvent :=
  match text with
  | [] => (s, [])
  | c :: rest =>
      let (s1, evs1) := sse_char s c in
      let (s2, evs2) := sse_feed s1 rest in
      (s2, evs1 ++ evs2)
  end.

Definition sse_parser : EventSourceParser :=
  {| parser_state := SseState; createParser := sse_init; feed := sse_feed |}.

Definition LF : string := String (ascii_of_nat 10) EmptyString.

(* ================================================================= *)
(** ** Transform streams *)

(** The object given to [new TransformStream({ start, transform, flush })]:
    three methods over the variables [S] of the closure that made them and
    the controller of the stream. *)
Record Transformer (I S : Type) := {
  start : Eff S unit;
  transform : I -> Eff S unit;
  flush : Eff S unit
}.

(** How a readable stream ends for the one who reads it. *)
Inductive UpstreamEnd :=
| Closes
| Errors (e : JsError).

(** The stream calls [transform] for the chunks written to it, in order
    and one at a time, as long as its writable side is not errored: a throw
    of [transform] errors the stream, and [controller.terminate()] errors
    the writable side; [stopped] tells whether it was called. *)
Fixpoint write_chunks {I S} (t : Transformer I S) (stopped : S -> bool)
  (inputs : list I) : Eff S unit :=
  match inputs with
  | [] => ret tt
  | chunk :: rest =>
      fun s =>
        if stopped s then (Normal tt, s)
        else (transform t chunk ;; write_chunks t stopped rest) s
  end.

(** The life of a transform stream that [pipeThrough] feeds from a source:
    [start] before anything is written, [transform] for each chunk, then,
    unless [terminate] was called, [flush] when the source closes.  When
    the source is errored the stream is errored with the same reason and
    [flush] is not called.  A throw errors the stream and nothing more is
    called. *)
Definition transform_stream {I S} (t : Transformer I S) (stopped : S -> bool)
  (inputs : list I) (upstream : UpstreamEnd) : Eff S unit :=
  start t ;;
  write_chunks t stopped inputs ;;
  fun s =>
    if stopped s then (Normal tt, s)
    else match upstream with
         | Closes => flush t s
         | Errors e => (Throw e, s)
         end.

(* ================================================================= *)
(** ** [createEventStreamTransformer] *)

(** [AIStreamParser]: [(data: string) => string | void], a JavaScript
    function, which may also throw. *)
Definition AIStreamParser := jsstring -> Completion (option jsstring).

(** The [TransformStreamDefaultController] of the framer, as far as the
    callback of the parser uses it, with two records of what was called:
    - [enqueued]: the chunks put on the readable side, oldest first;
    - [terminated]: [controller.terminate()] was called: the readable side
      closes once what is queued has been read, the writable side is
      errored, so [transform] is not called again;
    - [handled]: the events the callback of the parser was called with;
    - [hook_calls]: the events whose data [customParser] was called on. *)
Record FramerController := {
  enqueued : list jsstring;
  terminated : bool;
  handled : list ParseEvent;
  hook_calls : list ParsedEvent
}.

Definition controller_init : FramerController :=
  {| enqueued := []; terminated := false; handled := []; hook_calls := [] |}.

(** [controller.terminate()]; a second call changes nothing. *)
Definition controller_terminate : Eff FramerController unit :=
  modify (fun c => {| enqueued := enqueued c; terminated := true;
                      handled := handled c; hook_calls := hook_calls c |}).

(** [controller.enqueue(chunk)]: a [TypeError] once the readable side is
    closed or closing.  The message of the error is the platform's own;
    the one written here is that of Node, and no statement below depends
    on it. *)
Definition controller_enqueue (chunk : jsstring) : Eff FramerController unit :=
  fun c =>
    if terminated c
    then (Throw (TypeError (js "Invalid state: Unable to enqueue")), c)
    else (Normal tt, {| enqueued := enqueued c ++ [chunk]; terminated := false;
                        handled := handled c; hook_calls := hook_calls c |}).

Definition note_handled (ev : ParseEvent) : Eff FramerController unit :=
  modify (fun c => {| enqueued := enqueued c; terminated := terminated c;
                      handled := handled c ++ [ev]; hook_calls := hook_calls c |}).

(** [customParser(event.data)] *)
Definition call_customParser (customParser : AIStreamParser) (e : ParsedEvent)
  : Eff FramerController (option jsstring) :=
  fun c => (customParser (data e),
            {| enqueued := enqueued c; terminated := terminated c;
               handled := handled c; hook_calls := hook_calls c ++ [e] |}).

(** The condition of lines 46 to 53:
    [('data' in event && event.type === 'event' && event.data === '[DONE]')
     || event.event === 'done']. *)
Definition is_termination (ev : ParseEvent) : bool :=
  match ev with
  | Event e =>
      jseqb (data e) (js "[DONE]")
      || match event e with
         | Some name => jseqb name (js "done")
         | None => false
         end
  | ReconnectInterval _ => false
  end.

(** The callback given to [createParser], lines 45 to 64. *)
Definition onParse (customParser : option AIStreamParser) (ev : ParseEvent)
  : Eff FramerController unit :=
  note_handled ev ;;
  if is_termination ev then controller_terminate
  else
    match ev with
    | Event e =>
        parsedMessage <- match customParser with
                         | Some f => call_customParser f e
                         | None => ret (Some (data e))
                         end ;;
        match parsedMessage with
        | Some m => if truthy m then controller_enqueue m else ret tt
        | None => ret tt
        end
    | ReconnectInterval _ => ret tt
    end.

(** The variables of the closure, [eventSourceParser] ([textDecoder] has
    no state between two calls of [decode]), and the controller. *)
Record Framer (P : EventSourceParser) := {
  eventSourceParser : parser_state P;
  controller : FramerController
}.

(** The stream before [start]. *)
Definition framer_init (P : EventSourceParser) : Framer P :=
  {| eventSourceParser := createParser P; controller := controller_init |}.

(** [start(controller)], lines 43 to 66:
    [eventSourceParser = createParser(...)]. *)
Definition framer_start (P : EventSourceParser) : Eff (Framer P) unit :=
  modify (fun f => {| eventSourceParser := createParser P;
                      controller := controller f |}).
Arguments framer_start P : clear implicits.

(** [transform(chunk)], lines 68 to 70:
    [eventSourceParser.feed(textDecoder.decode(chunk))], the callback being
    run on each event of the feed until it throws. *)
Definition framer_transform P (customParser : option AIStreamParser)
  (chunk : list byte) : Eff (Framer P) unit :=
  fun f =>
    let (p', evs) := feed P (eventSourceParser f) (TextDecoder_decode chunk) in
    let (r, c') := for_each (onParse customParser) evs (controller f) in
    (r, {| eventSourceParser := p'; controller := c' |}).
Arguments framer_transform P customParser chunk : clear implicits.

(** [createEventStreamTransformer(customParser)]: no [flush]. *)
Definition createEventStreamTransformer P (customParser : option AIStreamParser)
  : Transformer (list byte) (Framer P) :=
  {| start := framer_start P;
     transform := framer_transform P customParser;
     flush := ret tt |}.

Definition framer_terminated P (f : Framer P) : bool :=
  terminated (controller f).

(** The chunks of a body written to the framer from the state [f]. *)
Definition framer_write P (customParser : option AIStreamParser)
  (chunks : list (list byte)) : Eff (Framer P) unit :=
  write_chunks (createEventStreamTransformer P customParser)
    (@framer_terminated P) chunks.

(** A response body: the chunks it gives, then its end. *)
Record Body := {
  chunks : list (list byte);
  body_end : UpstreamEnd
}.

(** [body.pipeThrough(createEventStreamTransformer(customParser))]: how
    the framer ends, a throw being the error of the stream, and its state
    then. *)
Definition framer_run P (customParser : option AIStreamParser) (b : Body)
  : Completion unit * Framer P :=
  transform_stream (createEventStreamTransformer P customParser)
    (@framer_terminated P) (chunks b) (body_end b) (framer_init P).

(** What the next stage of [pipeThrough] reads from the framer.  A
    readable side that closes gives everything that was enqueued.  One that
    is errored drops what is still queued: [taken] is the number of chunks
    the next stage had taken by then (it depends on scheduling).  After
    [terminate], a later throw of [transform] errors the readable side only
    when chunks are still queued. *)
Definition framer_readable P (result : Completion unit * Framer P)
  (taken : nat) : list jsstring * UpstreamEnd :=
  let all := enqueued (controller (snd result)) in
  match fst result with
  | Normal _ => (all, Closes)
  | Throw e =>
      if terminated (controller (snd result)) && (List.length all <=? taken)%nat
      then (all, Closes)
      else (firstn taken all, Errors e)
  end.

(* ================================================================= *)
(** ** [createCallbacksTransformer] *)

(** [AIStreamCallbacks]: three optional functions; a call of one ends when
    the promise it returns settles. *)
Record AIStreamCallbacks := {
  onStart : option (Completion unit);
  onCompletion : option (jsstring -> Completion unit);
  onToken : option (jsstring -> Completion unit)
}.

(** [callbacks || {}] *)
Definition no_callbacks : AIStreamCallbacks :=
  {| onStart := None; onCompletion := None; onToken := None |}.

Definition callbacks_or_empty (callbacks : option AIStreamCallbacks)
  : AIStreamCallbacks :=
  match callbacks with Some c => c | None => no_callbacks end.

(** What the transformer does that can be seen from outside, in the order
    it happens. *)
Inductive Action :=
| CallOnStart
| Enqueue (chunk : list byte)
| CallOnToken (token : jsstring)
| CallOnCompletion (completion : jsstring).

(** The variable of the closure, [aggregatedResponse], and the record of
    what was done. *)
Record CallbacksState := {
  aggregatedResponse : jsstring;
  trace : list Action
}.

(** [let aggregatedResponse = ''] *)
Definition callbacks_init : CallbacksState :=
  {| aggregatedResponse := []; trace := [] |}.

Definition act (a : Action) : Eff CallbacksState unit :=
  modify (fun s => {| aggregatedResponse := aggregatedResponse s;
                      trace := trace s ++ [a] |}).

Definition append_aggregated (message : jsstring) : Eff CallbacksState unit :=
  modify (fun s => {| aggregatedResponse := aggregatedResponse s ++ message;
                      trace := trace s |}).

Definition get_aggregated : Eff CallbacksState jsstring :=
  fun s => (Normal (aggregatedResponse s), s).

(** [start], lines 102 to 104. *)
Definition callbacks_start (cb : AIStreamCallbacks) : Eff CallbacksState unit :=
  match onStart cb with
  | Some f => act CallOnStart ;; lift f
  | None => ret tt
  end.

(** [transform], lines 106 to 111. *)
Definition callbacks_transform (cb : AIStreamCallbacks) (message : jsstring)
  : Eff CallbacksState unit :=
  act (Enqueue (TextEncoder_encode message)) ;;
  match onToken cb with
  | Some f => act (CallOnToken message) ;; lift (f message)
  | None => ret tt
  end ;;
  match onCompletion cb with
  | Some _ => append_aggregated message
  | None => ret tt
  end.

(** [flush], lines 113 to 115. *)
Definition callbacks_flush (cb : AIStreamCallbacks) : Eff CallbacksState unit :=
  match onCompletion cb with
  | Some f =>
      aggregated <- get_aggregated ;;
      act (CallOnCompletion aggregated) ;; lift (f aggregated)
  | None => ret tt
  end.

(** [createCallbacksTransformer(callbacks)] *)
Definition createCallbacksTransformer (callbacks : option AIStreamCallbacks)
  : Transformer jsstring CallbacksState :=
  let cb := callbacks_or_empty callbacks in
  {| start := callbacks_start cb;
     transform := callbacks_transform cb;
     flush := callbacks_flush cb |}.

(** How the returned stream ends: it closes, it is errored, or neither
    ever happens and a read of it stays pending. *)
Inductive StreamEnd :=
| Closed
| Errored (e : JsError)
| NeverSettles.

(** [source.pipeThrough(createCallbacksTransformer(callbacks))] for a
    source that gives [messages] and then ends: what the transformer does
    and how its readable side ends.  Its controller is never terminated. *)
Definition run_callbacks (callbacks : option AIStreamCallbacks)
  (messages : list jsstring) (upstream : UpstreamEnd)
  : list Action * StreamEnd :=
  match transform_stream (createCallbacksTransformer callbacks)
          (fun _ => false) messages upstream callbacks_init with
  | (Normal _, s) => (trace s, Closed)
  | (Throw e, s) => (trace s, Errored e)
  end.

(** The chunks enqueued on the readable side, in order. *)
Fixpoint enqueued_chunks (t : list Action) : list (list byte) :=
  match t with
  | [] => []
  | Enqueue c :: rest => c :: enqueued_chunks rest
  | _ :: rest => enqueued_chunks rest
  end.

(* ================================================================= *)
(** ** [trimStartOfStreamHelper] *)

(** One call of the returned closure: [isStreamStart] before the call, the
    text returned and [isStreamStart] after it. *)
Definition trimStartOfStreamHelper_call (isStreamStart : bool) (text : jsstring)
  : jsstring * bool :=
  if isStreamStart then
    let text' := trimStart text in
    (text', if truthy text' then false else isStreamStart)
  else (text, isStreamStart).

(** Successive calls of one closure. *)
Fixpoint trim_calls (isStreamStart : bool) (texts : list jsstring)
  : list jsstring :=
  match texts with
  | [] => []
  | text :: rest =>
      let (out, flag) := trimStartOfStreamHelper_call isStreamStart text in
      out :: trim_calls flag rest
  end.

(** [const trimStart = trimStartOfStreamHelper()], then one call per
    text: the flag starts at [true]. *)
Definition trimStartOfStreamHelper (texts : list jsstring) : list jsstring :=
  trim_calls true texts.

(* ================================================================= *)
(** ** [AIStream] and [createEmptyReadableStream] *)

(** The [Response] given to [AIStream]: [ok], [status] and [body]. *)
Record Response := {
  ok : bool;
  status : N;
  body : option Body
}.

(** [{ done, value }], the result of [reader.read()] and of [it.next()]. *)
Inductive IteratorResult (A : Type) :=
| Value (value : A)
| Done.
Arguments Done {A}.

(** [response.body.getReader()]: what is left of the body and the number
    of [read()] calls made. *)
Record Reader := {
  unread : Body;
  reads : nat
}.

Definition getReader (b : Body) : Reader := {| unread := b; reads := 0%nat |}.

(** [await reader.read()]: the next chunk, [done] at the end of a body
    that closes, a rejection for a body that is errored. *)
Definition reader_read : Eff Reader (IteratorResult (list byte)) :=
  fun r =>
    let count := S (reads r) in
    match chunks (unread r) with
    | value :: rest =>
        (Normal (Value value),
         {| unread := {| chunks := rest; body_end := body_end (unread r) |};
            reads := count |})
    | [] =>
        (match body_end (unread r) with
         | Closes => Normal Done
         | Errors e => Throw e
         end,
         {| unread := unread r; reads := count |})
    end.

(** The stream of lines 204 to 210: closed by [start], no chunk. *)
Definition createEmptyReadableStream : Body :=
  {| chunks := []; body_end := Closes |}.

(** What can be seen of a call of [AIStream]:
    - [output]: the chunks enqueued on the returned stream, in order;
    - [ending]: how the returned stream ends;
    - [tokens]: the messages the callbacks transformer was given;
    - [callback_trace]: what the callbacks transformer did, in order;
    - [framing]: the controller of the framer at the end;
    - [error_reader]: for a response that is not ok and has a body, the
      reader of that body after [start] has run. *)
Record AIStreamResult := {
  output : list (list byte);
  ending : StreamEnd;
  tokens : list jsstring;
  callback_trace : list Action;
  framing : FramerController;
  error_reader : option Reader
}.

(** The stream of lines 172 to 180: [start] reads once, and calls
    [controller.error] when the read was not [done]; a rejected read
    rejects [start], which errors the stream. *)
Definition error_stream_start : Eff Reader StreamEnd :=
  r <- reader_read ;;
  match r with
  | Value value =>
      let errorText := TextDecoder_decode value in
      ret (Errored (Error (js "Response error: " ++ errorText)))
  | Done => ret NeverSettles
  end.

(** [AIStream(response, customParser, callbacks)], lines 164 to 195.
    [taken] is the scheduling parameter of [framer_readable]. *)
Definition AIStream (P : EventSourceParser) (response : Response)
  (customParser : option AIStreamParser)
  (callbacks : option AIStreamCallbacks) (taken : nat) : AIStreamResult :=
  if negb (ok response) then
    match body response with
    | Some b =>
        let (r, reader) := error_stream_start (getReader b) in
        {| output := [];
           ending := match r with Normal e => e | Throw e => Errored e end;
           tokens := []; callback_trace := []; framing := controller_init;
           error_reader := Some reader |}
    | None =>
        {| output := [];
           ending := Errored (Error (js "Response error: No response body"));
           tokens := []; callback_trace := []; framing := controller_init;
           error_reader := None |}
    end
  else
    let responseBodyStream :=
      match body response with
      | Some b => b
      | None => createEmptyReadableStream
      end in
    let framed := framer_run P customParser responseBodyStream in
    let (messages, upstream) := framer_readable framed taken in
    let (t, e) := run_callbacks callbacks messages upstream in
    {| output := enqueued_chunks t; ending := e; tokens := messages;
       callback_trace := t; framing := controller (snd framed);
       error_reader := None |}.

(* ================================================================= *)
(** ** [readableFromAsyncIterable] *)

(** The iterator [iterable[Symbol.asyncIterator]()]: a state, [next], and
    an optional [return], each of which may reject. *)
Record AsyncIterator (T : Type) := {
  iterator_state : Type;
  iterator_start : iterator_state;
  next : iterator_state -> Completion (IteratorResult T) * iterator_state;
  return_ : option (JsError -> iterator_state -> Completion unit * iterator_state)
}.

(** The calls made on the iterator. *)
Inductive IteratorCall :=
| CallNext
| CallReturn (reason : JsError).

Inductive ReadableState :=
| Readable
| StreamClosed
| StreamErrored (e : JsError).

(** The stream returned by [readableFromAsyncIterable]: the iterator [it],
    the state and the queue of the stream, and the calls made so far. *)
Record AdapterStream (T : Type) (I : AsyncIterator T) := {
  it : iterator_state I;
  stream_state : ReadableState;
  queue : list T;
  calls : list IteratorCall
}.

Definition readableFromAsyncIterable T (I : AsyncIterator T) : AdapterStream I :=
  {| it := iterator_start I; stream_state := Readable; queue := [];
     calls := [] |}.

(** [pull(controller)], lines 219 to 223: one [it.next()], then [close] or
    [enqueue]; a rejection errors the stream. *)
Definition adapter_pull T (I : AsyncIterator T) (s : AdapterStream I)
  : AdapterStream I :=
  let (r, it') := next I (it s) in
  let log := calls s ++ [CallNext] in
  match r with
  | Normal Done =>
      {| it := it'; stream_state := StreamClosed; queue := queue s; calls := log |}
  | Normal (Value value) =>
      {| it := it'; stream_state := Readable; queue := queue s ++ [value];
         calls := log |}
  | Throw e =>
      {| it := it'; stream_state := StreamErrored e; queue := []; calls := log |}
  end.

(** [cancel(reason)], lines 225 to 227: [await it.return?.(reason)]. *)
Definition adapter_cancel T (I : AsyncIterator T) (reason : JsError)
  (s : AdapterStream I) : AdapterStream I :=
  match return_ I with
  | Some f =>
      {| it := snd (f reason (it s)); stream_state := stream_state s;
         queue := queue s; calls := calls s ++ [CallReturn reason] |}
  | None => s
  end.

(** What happens to the stream: it asks its source for a chunk, a reader
    takes a chunk, or someone cancels it. *)
Inductive StreamOp (T : Type) :=
| Pull
| Read
| Cancel (reason : JsError).
Arguments Pull {T}.
Arguments Read {T}.
Arguments Cancel {T} reason.

(** The stream calls [pull] only while it is readable and its queue is
    empty (the default high water mark is 1; a pending read means an empty
    queue).  Cancelling a readable stream empties the queue, closes the
    stream and calls [cancel]; cancelling a closed or errored stream calls
    nothing. *)
Definition stream_step T (I : AsyncIterator T) (s : AdapterStream I)
  (op : StreamOp T) : AdapterStream I :=
  match op, stream_state s with
  | Pull, Readable =>
      match queue s with
      | [] => adapter_pull s
      | _ :: _ => s
      end
  | Read, Readable =>
      {| it := it s; stream_state := Readable; queue := tl (queue s);
         calls := calls s |}
  | Cancel reason, Readable =>
      adapter_cancel reason
        {| it := it s; stream_state := StreamClosed; queue := [];
           calls := calls s |}
  | _, _ => s
  end.

Definition stream_run T (I : AsyncIterator T) (s : AdapterStream I)
  (ops : list (StreamOp T)) : AdapterStream I :=
  fold_left (@stream_step T I) ops s.

Definition is_return (c : IteratorCall) : bool :=
  match c with CallReturn _ => true | CallNext => false end.

(** The [return] calls among the calls made on the iterator. *)
Definition return_calls (l : list IteratorCall) : list IteratorCall :=
  filter is_return l.

(* ================================================================= *)
(** ** Vocabulary of the statements *)

(** The action of a callback that was supplied; nothing for one that was
    not. *)
Definition if_supplied {A} (callback : option A) (a : Action) : list Action :=
  match callback with Some _ => [a] | None => [] end.

(** No supplied callback throws or returns a promise that rejects. *)
Definition callbacks_resolve (cb : AIStreamCallbacks) : Prop :=
  (forall f, onStart cb = Some f -> f = Normal tt)
  /\ (forall f token, onToken cb = Some f -> f token = Normal tt)
  /\ (forall f completion, onCompletion cb = Some f -> f completion = Normal tt).

(** The order the specification gives: [onStart], then for each token the
    enqueue of its bytes followed by [onToken], then [onCompletion] with
    the concatenation of the tokens. *)
Definition lifecycle_order (cb : AIStreamCallbacks) (messages : list jsstring)
  : list Action :=
  if_supplied (onStart cb) CallOnStart
  ++ flat_map (fun m => Enqueue (TextEncoder_encode m)
                        :: if_supplied (onToken cb) (CallOnToken m)) messages
  ++ if_supplied (onCompletion cb) (CallOnCompletion (List.concat messages)).

Definition is_start (a : Action) : bool :=
  match a with CallOnStart => true | _ => false end.

(** The arguments of the [onCompletion] calls of a trace. *)
Fixpoint completion_calls (t : list Action) : list jsstring :=
  match t with
  | [] => []
  | CallOnCompletion c :: rest => c :: completion_calls rest
  | _ :: rest => completion_calls rest
  end.

(** What the token-extraction hook gives for the data of an event: the
    data itself when no hook is supplied. *)
Definition extraction (customParser : option AIStreamParser) (d : jsstring)
  : option jsstring :=
  match customParser with
  | Some f => match f d with Normal r => r | Throw _ => None end
  | None => Some d
  end.

(** The token of one event in the words of the specification: the
    extraction result when it is not empty, nothing otherwise, nothing for
    a retry interval. *)
Definition event_token (customParser : option AIStreamParser) (ev : ParseEvent)
  : list jsstring :=
  match ev with
  | Event e =>
      match extraction customParser (data e) with
      | Some m => if truthy m then [m] else []
      | None => []
      end
  | ReconnectInterval _ => []
  end.

Definition expected_tokens (customParser : option AIStreamParser)
  (evs : list ParseEvent) : list jsstring :=
  flat_map (event_token customParser) evs.

(** The hook returns on the data of every event of [evs]. *)
Definition hook_returns (customParser : option AIStreamParser)
  (evs : list ParseEvent) : Prop :=
  forall f e, customParser = Some f -> In (Event e) evs ->
              exists r, f (data e) = Normal r.

(** The last code unit of a string is a high surrogate: the string ends
    in the middle of a surrogate pair. *)
Fixpoint ends_with_high_surrogate (s : jsstring) : bool :=
  match s with
  | [] => false
  | [c] => is_high_surrogate c
  | _ :: t => ends_with_high_surrogate t
  end.

(** The words of the specification on termination, read on the record of
    the events the callback of the parser was called with: an event that is
    a termination event is the last one. *)
Definition framing_stops_at_termination (c : FramerController) : Prop :=
  forall before ev after,
    handled c = before ++ ev :: after -> is_termination ev = true -> after = [].

(** [response.body || createEmptyReadableStream()] *)
Definition body_or_empty (response : Response) : Body :=
  match body response with
  | Some b => b
  | None => createEmptyReadableStream
  end.

(** A step of the callbacks transformer that adds no [onStart] call to the
    trace. *)
Definition adds_no_start (m : Eff CallbacksState unit) : Prop :=
  forall s, exists added,
    trace (snd (m s)) = trace s ++ added /\ filter is_start added = [].

(* ================================================================= *)
(** ** Sample inputs *)

(** Lines of text, each ended by LF. *)
Fixpoint lines (ls : list string) : string :=
  match ls with
  | [] => EmptyString
  | l :: rest => (l ++ LF ++ lines rest)%string
  end.

(** A hook that returns the data as it is. *)
Definition identity_hook : AIStreamParser := fun d => Normal (Some d).

(** Callbacks that never fail. *)
Definition quiet_callbacks : AIStreamCallbacks :=
  {| onStart := Some (Normal tt);
     onCompletion := Some (fun _ => Normal tt);
     onToken := Some (fun _ => Normal tt) |}.

Definition plain_event (d : string) : ParseEvent :=
  Event {| evt_id := None; event := None; data := js d |}.

(** A hook that reads its data as four hexadecimal digits of one UTF-16
    code unit, as a JSON string escape gives them, and returns the data
    itself when it is not of that form. *)
Definition hex_digit (c : N) : option N :=
  if N.leb 48 c && N.leb c 57 then Some (c - 48)
  else if N.leb 65 c && N.leb c 70 then Some (c - 55)
  else None.

Definition escape_hook : AIStreamParser :=
  fun d =>
    match map hex_digit d with
    | [Some a; Some b; Some c; Some e] =>
        Normal (Some [((a * 16 + b) * 16 + c) * 16 + e])
    | _ => Normal (Some d)
    end.

Definition ok_response (chunks : list (list byte)) : Response :=
  {| ok := true; status := 200;
     body := Some {| chunks := chunks; body_end := Closes |} |}.

(** An iterator that counts: it yields [0], [1], [2] and is then done; its
    [return] stops it. *)
Definition counting_iterator : AsyncIterator N :=
  {| iterator_state := N;
     iterator_start := 0;
     next := fun n => if N.ltb n 3
                      then (Normal (Value n), n + 1)
                      else (Normal Done, n);
     return_ := Some (fun _ _ => (Normal tt, 3)) |}.

Definition cancel_reason : JsError := Error (js "client went away").

(** An iterator that counts without end and keeps, next to its count, the
    reasons its [return] was called with. *)
Definition reason_keeping_iterator : AsyncIterator N :=
  {| iterator_state := (N * list JsError)%type;
     iterator_start := (0, []);
     next := fun st => (Normal (Value (fst st)), (fst st + 1, snd st));
     return_ := Some (fun reason st => (Normal tt, (fst st, snd st ++ [reason]))) |}.

(* ================================================================= *)
(** ** Vocabulary of the further statements *)

(** The events up to the first termination event, that one left out. *)
Fixpoint before_termination (evs : list ParseEvent) : list ParseEvent :=
  match evs with
  | [] => []
  | ev :: rest =>
      if is_termination ev then [] else ev :: before_termination rest
  end.

(** The events with data among what the parser dispatched. *)
Fixpoint parsed_events (evs : list ParseEvent) : list ParsedEvent :=
  match evs with
  | [] => []
  | Event e :: rest => e :: parsed_events rest
  | ReconnectInterval _ :: rest => parsed_events rest
  end.

(** The state of the parser after the chunks were fed. *)
Fixpoint parser_after (P : EventSourceParser) (p : parser_state P)
  (chunks : list (list byte)) : parser_state P :=
  match chunks with
  | [] => p
  | chunk :: rest =>
      parser_after P (fst (feed P p (TextDecoder_decode chunk))) rest
  end.

(** The arguments of the [onToken] calls of a trace. *)
Fixpoint token_calls (t : list Action) : list jsstring :=
  match t with
  | [] => []
  | CallOnToken m :: rest => m :: token_calls rest
  | _ :: rest => token_calls rest
  end.




(** The values a reader is given by the [Read] steps of [ops]. *)
Fixpoint read_values T (I : AsyncIterator T) (s : AdapterStream I)
  (ops : list (StreamOp T)) : list T :=
  match ops with
  | [] => []
  | op :: rest =>
      match op, stream_state s, queue s with
      | Read, Readable, value :: _ => [value]
      | _, _, _ => []
      end ++ read_values (stream_step s op) rest
  end.

(** The values of the first [n] calls of [next], up to the first that is
    [done] or rejects. *)
Fixpoint yielded T (I : AsyncIterator T) (it : iterator_state I) (n : nat)
  : list T :=
  match n with
  | O => []
  | S n' =>
      match next I it with
      | (Normal (Value value), it') => value :: yielded I it' n'
      | _ => []
      end
  end.

Definition is_next (c : IteratorCall) : bool :=
  match c with CallNext => true | CallReturn _ => false end.

(** An iterator whose third [next] rejects and which has no [return]. *)
Definition failing_iterator : AsyncIterator N :=
  {| iterator_state := N;
     iterator_start := 0;
     next := fun n => if N.ltb n 2
                      then (Normal (Value n), n + 1)
                      else (Throw (Error (js "source failed")), n);
     return_ := None |}.

(** A hook that fails on the data ["boom"]. *)
Definition fragile_hook : AIStreamParser :=
  fun d => if jseqb d (js "boom")
           then Throw (Error (js "bad payload"))
           else Normal (Some d).

(** Callbacks whose [onToken] fails on the token ["bad"]. *)
Definition fragile_callbacks : AIStreamCallbacks :=
  {| onStart := Some (Normal tt);
     onCompletion := Some (fun _ => Normal tt);
     onToken := Some (fun t => if jseqb t (js "bad")
                               then Throw (Error (js "onToken failed"))
                               else Normal tt) |}.

(* ================================================================= *)
(** * Lemmas and theorems *)

(** ** The encoder, the decoder and the reference parser on examples *)

Example decode_ascii :
  TextDecoder_decode (bytes "rate limited") = js "rate limited".
Proof. vm_compute. reflexivity. Qed.

Example encode_pair :
  TextEncoder_encode [55357; 56832] = [xf0; x9f; x98; x80].
Proof. vm_compute. reflexivity. Qed.

Example encode_lone :
  TextEncoder_encode [55357] ++ TextEncoder_encode [56832]
  = [xef; xbf; xbd; xef; xbf; xbd].
Proof. vm_compute. reflexivity. Qed.

Example decode_split :
  TextDecoder_decode [xc3] ++ TextDecoder_decode [xa9] = [65533; 65533]
  /\ TextDecoder_decode [xc3; xa9] = [233]
  /\ TextDecoder_decode [xf0; x9f; x98; x80] = [55357; 56832].
Proof. vm_compute. auto. Qed.

Example sse_two_events :
  dispatched sse_parser sse_init
    [bytes ("data: hel" ++ ""); bytes ("lo" ++ LF ++ LF ++ "event: done" ++ LF ++ "data: {}" ++ LF ++ LF)]
  = [Event {| evt_id := None; event := None; data := js "hello" |};
     Event {| evt_id := None; event := Some (js "done"); data := js "{}" |}].
Proof. vm_compute. reflexivity. Qed.

(** ** The pipeline on examples *)

(** A stream in the style of OpenAI: two events, then ["[DONE]"]. *)
Example stream_with_DONE :
  let r := AIStream sse_parser
             (ok_response
                [bytes (lines ["data: Hello"; ""; "data:  world"]);
                 bytes (lines [""; "data: [DONE]"; ""])])
             None (Some quiet_callbacks) 0 in
  output r = [bytes "Hello"; bytes " world"]
  /\ ending r = Closed
  /\ completion_calls (callback_trace r) = [js "Hello world"].
Proof. vm_compute. repeat split. Qed.

(** A stream in the style of Replicate: it ends with an event of type
    ["done"]. *)
Example stream_with_done_event :
  let r := AIStream sse_parser
             (ok_response
                [bytes (lines ["event: output"; "data: Hi"; "";
                               "event: done"; "data: {}"; ""])])
             None (Some quiet_callbacks) 0 in
  tokens r = [js "Hi"]
  /\ ending r = Closed
  /\ completion_calls (callback_trace r) = [js "Hi"].
Proof. vm_compute. repeat split. Qed.

(** A response that is not ok and has no body. *)
Example missing_body_failure :
  let r := AIStream sse_parser {| ok := false; status := 502; body := None |}
             None (Some quiet_callbacks) 0 in
  output r = []
  /\ ending r = Errored (Error (js "Response error: No response body"))
  /\ includes (js "Response error: No response body") (js "No response body")
     = true.
Proof. vm_compute. repeat split. Qed.

(** ** Strings *)

Lemma jseqb_eq (s t : jsstring) : jseqb s t = true <-> s = t.
Proof.
  revert t; induction s as [|c s IH]; intros [|d t]; simpl; split;
    try congruence; try reflexivity.
  - intros H. apply andb_true_iff in H as [Hc Hs].
    apply N.eqb_eq in Hc. apply IH in Hs. congruence.
  - intros H. injection H as -> ->. rewrite N.eqb_refl. simpl. now apply IH.
Qed.

Lemma jseqb_neq (s t : jsstring) : jseqb s t = false <-> s <> t.
Proof.
  split.
  - intros H E. apply jseqb_eq in E. congruence.
  - intros H. destruct (jseqb s t) eqn:E; [|reflexivity].
    apply jseqb_eq in E. contradiction.
Qed.

Lemma starts_with_app (p s : jsstring) : starts_with (p ++ s) p = true.
Proof.
  induction p as [|c p IH]; simpl.
  - now destruct s.
  - now rewrite N.eqb_refl.
Qed.

Lemma includes_refl (s : jsstring) : includes s s = true.
Proof.
  destruct s as [|c s]; simpl.
  - reflexivity.
  - rewrite N.eqb_refl. simpl.
    replace s with (s ++ []) at 1 by apply app_nil_r.
    now rewrite starts_with_app.
Qed.

Lemma truthy_true (s : jsstring) : truthy s = true <-> s <> [].
Proof. destruct s; simpl; split; congruence. Qed.

Lemma truthy_false (s : jsstring) : truthy s = false <-> s = [].
Proof. destruct s; simpl; split; congruence. Qed.

(** ** [trimStartOfStreamHelper] *)

(** Once the flag is down every text is returned as it is. *)
Lemma trim_calls_false (texts : list jsstring) : trim_calls false texts = texts.
Proof.
  induction texts as [|t texts IH]; simpl; [reflexivity|]. now rewrite IH.
Qed.

(** A text of white space only gives the empty string and leaves the flag
    up. *)
Lemma trim_call_blank (text : jsstring) :
  trimStart text = [] -> trimStartOfStreamHelper_call true text = ([], true).
Proof. unfold trimStartOfStreamHelper_call. intros ->. reflexivity. Qed.

(** A text with something after its white space is trimmed and takes the
    flag down. *)
Lemma trim_call_residue (text : jsstring) :
  trimStart text <> [] ->
  trimStartOfStreamHelper_call true text = (trimStart text, false).
Proof.
  unfold trimStartOfStreamHelper_call. intros H.
  apply truthy_true in H. now rewrite H.
Qed.

Lemma trim_calls_blanks (blanks rest : list jsstring) :
  Forall (fun b => trimStart b = []) blanks ->
  trim_calls true (blanks ++ rest)
  = map (fun _ => []) blanks ++ trim_calls true rest.
Proof.
  induction 1 as [|b blanks Hb _ IH]; cbn [trim_calls app map]; [reflexivity|].
  rewrite (trim_call_blank _ Hb). now rewrite IH.
Qed.

(** C6.  The closure returned by [trimStartOfStreamHelper] strips leading
    white space until the first call whose result is not empty, and returns
    every later text as it is: when the texts [blanks] are white space only
    and [text] is the first one with something else in it, the calls on
    [blanks ++ text :: rest] return the empty string for each of [blanks],
    [text] without its leading white space, and [rest] unchanged; calls on
    white space only all return the empty string (trimming stays active).  On
    ["   a"; "   b"] the results are ["a"; "   b"], on ["   "; "  c"] they
    are [""; "c"]. *)
Theorem trim_until_first_residue
  (blanks : list jsstring) (text : jsstring) (rest : list jsstring) :
  Forall (fun b => trimStart b = []) blanks ->
  trimStart text <> [] ->
  trimStartOfStreamHelper (blanks ++ text :: rest)
  = map (fun _ => []) blanks ++ trimStart text :: rest
  /\ trimStartOfStreamHelper blanks = map (fun _ => []) blanks
  /\ trimStartOfStreamHelper [js "   a"; js "   b"] = [js "a"; js "   b"]
  /\ trimStartOfStreamHelper [js "   "; js "  c"] = [js ""; js "c"].
Proof.
  intros Hblanks Htext. unfold trimStartOfStreamHelper. repeat split.
  - rewrite trim_calls_blanks by assumption. cbn [trim_calls].
    rewrite (trim_call_residue _ Htext). now rewrite trim_calls_false.
  - rewrite <- (app_nil_r blanks) at 1.
    rewrite trim_calls_blanks by assumption. cbn [trim_calls].
    now rewrite app_nil_r.
Qed.

Lemma trim_until_first_residue_witness :
  trimStartOfStreamHelper ([js "   "; js (String (ascii_of_nat 9) "")]
                           ++ js "  c " :: [js "  d"; js " "])
  = [js ""; js ""; js "c "; js "  d"; js " "].
Proof.
  apply (@trim_until_first_residue
           [js "   "; js (String (ascii_of_nat 9) "")] (js "  c ")
           [js "  d"; js " "]).
  - repeat constructor.
  - discriminate.
Defined.

(** ** Effects *)

Lemma for_each_app {S A} (body : A -> Eff S unit) (xs ys : list A) (s : S) :
  for_each body (xs ++ ys) s
  = match for_each body xs s with
    | (Normal _, s') => for_each body ys s'
    | (Throw e, s') => (Throw e, s')
    end.
Proof.
  revert s; induction xs as [|x xs IH]; intros s; simpl.
  - reflexivity.
  - unfold bind. destruct (body x s) as [[[]|e] s']; [apply IH|reflexivity].
Qed.

(** A stream whose controller is never terminated gives every chunk to
    [transform]. *)
Lemma write_chunks_all {I S} (t : Transformer I S) (inputs : list I) (s : S) :
  write_chunks t (fun _ => false) inputs s = for_each (transform t) inputs s.
Proof.
  revert s; induction inputs as [|x inputs IH]; intros s; simpl.
  - reflexivity.
  - unfold bind. destruct (transform t x s) as [[[]|e] s']; [apply IH|reflexivity].
Qed.

(** ** [createCallbacksTransformer] *)

Section Lifecycle.

Variable cb : AIStreamCallbacks.
Hypothesis resolve : callbacks_resolve cb.

Lemma start_resolves (s : CallbacksState) :
  callbacks_start cb s
  = (Normal tt,
     {| aggregatedResponse := aggregatedResponse s;
        trace := trace s ++ if_supplied (onStart cb) CallOnStart |}).
Proof.
  destruct resolve as [Hstart _]. unfold callbacks_start.
  destruct (onStart cb) as [f|] eqn:E; simpl.
  - unfold bind, act, modify, lift. now rewrite (Hstart f eq_refl).
  - unfold ret. rewrite app_nil_r. now destruct s.
Qed.

Lemma transform_resolves (message : jsstring) (s : CallbacksState) :
  callbacks_transform cb message s
  = (Normal tt,
     {| aggregatedResponse :=
          match onCompletion cb with
          | Some _ => aggregatedResponse s ++ message
          | None => aggregatedResponse s
          end;
        trace := trace s ++ Enqueue (TextEncoder_encode message)
                            :: if_supplied (onToken cb) (CallOnToken message) |}).
Proof.
  destruct resolve as (_ & Htoken & _). unfold callbacks_transform.
  destruct (onToken cb) as [f|] eqn:Et; destruct (onCompletion cb) as [g|];
    unfold bind, act, modify, lift, ret, append_aggregated; simpl;
    try rewrite (Htoken f message eq_refl); simpl;
    rewrite <- ?app_assoc; reflexivity.
Qed.

Lemma transforms_resolve (messages : list jsstring) (s : CallbacksState) :
  for_each (callbacks_transform cb) messages s
  = (Normal tt,
     {| aggregatedResponse :=
          match onCompletion cb with
          | Some _ => aggregatedResponse s ++ List.concat messages
          | None => aggregatedResponse s
          end;
        trace :=
          trace s
          ++ flat_map (fun m => Enqueue (TextEncoder_encode m)
                                :: if_supplied (onToken cb) (CallOnToken m))
               messages |}).
Proof.
  revert s; induction messages as [|m messages IH]; intros s; simpl.
  - unfold ret. rewrite !app_nil_r. destruct s, (onCompletion cb); reflexivity.
  - unfold bind. rewrite transform_resolves. rewrite IH. simpl.
    f_equal. f_equal.
    + destruct (onCompletion cb); [now rewrite app_assoc | reflexivity].
    + rewrite <- app_assoc. reflexivity.
Qed.

Lemma flush_resolves (s : CallbacksState) :
  callbacks_flush cb s
  = (Normal tt,
     {| aggregatedResponse := aggregatedResponse s;
        trace := trace s
                 ++ if_supplied (onCompletion cb)
                      (CallOnCompletion (aggregatedResponse s)) |}).
Proof.
  destruct resolve as (_ & _ & Hcompletion). unfold callbacks_flush.
  destruct (onCompletion cb) as [f|] eqn:E; simpl.
  - unfold bind, get_aggregated, act, modify, lift. simpl.
    now rewrite (Hcompletion f _ eq_refl).
  - unfold ret. rewrite app_nil_r. now destruct s.
Qed.

Lemma stream_resolves (messages : list jsstring) :
  (callbacks_start cb ;;
   for_each (callbacks_transform cb) messages ;;
   callbacks_flush cb) callbacks_init
  = (Normal tt,
     {| aggregatedResponse :=
          match onCompletion cb with
          | Some _ => List.concat messages
          | None => []
          end;
        trace := lifecycle_order cb messages |}).
Proof.
  unfold bind. rewrite start_resolves.
  rewrite transforms_resolve. rewrite flush_resolves. simpl.
  unfold lifecycle_order.
  destruct (onCompletion cb); simpl; rewrite <- ?app_assoc; reflexivity.
Qed.

End Lifecycle.

(** The life of the callbacks transformer, written with its three
    methods. *)
Lemma callbacks_stream_unfold (callbacks : option AIStreamCallbacks)
  (messages : list jsstring) (upstream : UpstreamEnd) (s : CallbacksState) :
  transform_stream (createCallbacksTransformer callbacks) (fun _ => false)
    messages upstream s
  = (callbacks_start (callbacks_or_empty callbacks) ;;
     for_each (callbacks_transform (callbacks_or_empty callbacks)) messages ;;
     match upstream with
     | Closes => callbacks_flush (callbacks_or_empty callbacks)
     | Errors e => throw e
     end) s.
Proof.
  unfold transform_stream, bind.
  cbn [createCallbacksTransformer start flush].
  destruct (callbacks_start (callbacks_or_empty callbacks) s)
    as [[[]|e] s1]; [|reflexivity].
  rewrite write_chunks_all. cbn [createCallbacksTransformer transform].
  destruct (for_each (callbacks_transform (callbacks_or_empty callbacks))
              messages s1) as [[[]|e] s2]; [|reflexivity].
  destruct upstream; reflexivity.
Qed.

(** The callbacks transformer on a source that closes, with callbacks that
    do not fail. *)
Lemma run_callbacks_resolves (callbacks : option AIStreamCallbacks)
  (messages : list jsstring) :
  callbacks_resolve (callbacks_or_empty callbacks) ->
  run_callbacks callbacks messages Closes
  = (lifecycle_order (callbacks_or_empty callbacks) messages, Closed).
Proof.
  intros Hres. unfold run_callbacks. rewrite callbacks_stream_unfold.
  now rewrite (stream_resolves Hres).
Qed.

(** C2.  With callbacks that do not fail, for every sequence of tokens
    (the non-empty ones in particular) written to the callbacks transformer
    and followed by the close of its source, what the transformer does is, in
    this order: [onStart] once, before anything is enqueued; for each token
    in arrival order the enqueue of its bytes, then [onToken] on it; and
    [onCompletion] once, after the last enqueue, on the concatenation of all
    tokens in arrival order.  A callback that was not supplied leaves its
    call out of the sequence.  The stream then closes. *)
Theorem callbacks_in_lifecycle_order
  (cb : AIStreamCallbacks) (messages : list jsstring) :
  callbacks_resolve cb ->
  run_callbacks (Some cb) messages Closes = (lifecycle_order cb messages, Closed)
  /\ (forall s t c,
         onStart cb = Some s -> onToken cb = Some t -> onCompletion cb = Some c ->
         fst (run_callbacks (Some cb) messages Closes)
         = CallOnStart
           :: flat_map (fun m => [Enqueue (TextEncoder_encode m); CallOnToken m])
                messages
           ++ [CallOnCompletion (List.concat messages)]).
Proof.
  intros Hres.
  assert (E : run_callbacks (Some cb) messages Closes
              = (lifecycle_order cb messages, Closed)).
  { now apply (run_callbacks_resolves (Some cb)). }
  split; [exact E|].
  intros s t c Hs Ht Hc. rewrite E. simpl. unfold lifecycle_order.
  rewrite Hs, Ht, Hc. reflexivity.
Qed.

(** The sample callbacks do not fail. *)
Lemma quiet_callbacks_resolve : callbacks_resolve quiet_callbacks.
Proof.
  repeat split; simpl; intros; match goal with
  | H : Some _ = Some _ |- _ => injection H as <-; reflexivity
  end.
Defined.

Lemma callbacks_in_lifecycle_order_witness :
  run_callbacks (Some quiet_callbacks) [js "Hel"; js "lo"] Closes
  = ([CallOnStart;
      Enqueue (bytes "Hel"); CallOnToken (js "Hel");
      Enqueue (bytes "lo"); CallOnToken (js "lo");
      CallOnCompletion (js "Hello")], Closed).
Proof.
  apply (@callbacks_in_lifecycle_order quiet_callbacks [js "Hel"; js "lo"]).
  exact quiet_callbacks_resolve.
Defined.

(** *** [onStart] whatever the callbacks do *)

Lemma adds_no_start_bind (m k : Eff CallbacksState unit) :
  adds_no_start m -> adds_no_start k -> adds_no_start (m ;; k).
Proof.
  intros Hm Hk s. unfold bind. destruct (Hm s) as (a1 & E1 & F1).
  destruct (m s) as [[[]|e] s1]; simpl in *.
  - destruct (Hk s1) as (a2 & E2 & F2). exists (a1 ++ a2). split.
    + now rewrite E2, E1, app_assoc.
    + now rewrite filter_app, F1, F2.
  - now exists a1.
Qed.

Lemma adds_no_start_ret : adds_no_start (ret tt).
Proof. intros s. exists []. simpl. now rewrite app_nil_r. Qed.

Lemma adds_no_start_throw (e : JsError) : adds_no_start (throw e).
Proof. intros s. exists []. simpl. now rewrite app_nil_r. Qed.

Lemma adds_no_start_lift (c : Completion unit) : adds_no_start (lift c).
Proof. intros s. exists []. simpl. now rewrite app_nil_r. Qed.

Lemma adds_no_start_act (a : Action) :
  is_start a = false -> adds_no_start (act a).
Proof. intros H s. exists [a]. simpl. now rewrite H. Qed.

Lemma adds_no_start_transform (cb : AIStreamCallbacks) (m : jsstring) :
  adds_no_start (callbacks_transform cb m).
Proof.
  unfold callbacks_transform.
  repeat apply adds_no_start_bind.
  - now apply adds_no_start_act.
  - destruct (onToken cb).
    + apply adds_no_start_bind;
        [now apply adds_no_start_act | apply adds_no_start_lift].
    + apply adds_no_start_ret.
  - destruct (onCompletion cb); [|apply adds_no_start_ret].
    intros s. exists []. simpl. now rewrite app_nil_r.
Qed.

Lemma adds_no_start_for_each (cb : AIStreamCallbacks) (ms : list jsstring) :
  adds_no_start (for_each (callbacks_transform cb) ms).
Proof.
  induction ms as [|m ms IH]; simpl.
  - apply adds_no_start_ret.
  - apply adds_no_start_bind; [apply adds_no_start_transform | exact IH].
Qed.

Lemma adds_no_start_flush (cb : AIStreamCallbacks) :
  adds_no_start (callbacks_flush cb).
Proof.
  unfold callbacks_flush. destruct (onCompletion cb) as [f|].
  - intros s. unfold bind, get_aggregated. simpl.
    exists [CallOnCompletion (aggregatedResponse s)].
    destruct (f (aggregatedResponse s)); simpl; auto.
  - apply adds_no_start_ret.
Qed.

(** [onStart], when supplied, is the first thing the transformer does and
    is not called again, for any messages, any end of the source and any
    behaviour of the callbacks. *)
Lemma run_callbacks_starts_once (cb : AIStreamCallbacks) (f : Completion unit)
  (messages : list jsstring) (upstream : UpstreamEnd) :
  onStart cb = Some f ->
  exists rest,
    fst (run_callbacks (Some cb) messages upstream) = CallOnStart :: rest
    /\ filter is_start rest = [].
Proof.
  intros Hf. unfold run_callbacks. rewrite callbacks_stream_unfold.
  cbn [callbacks_or_empty]. unfold callbacks_start. rewrite Hf.
  unfold bind at 1. unfold bind at 1. simpl.
  destruct f as [[]|e]; simpl.
  - pose proof (@adds_no_start_bind
                  (for_each (callbacks_transform cb) messages)
                  (match upstream with
                   | Closes => callbacks_flush cb
                   | Errors e => throw e
                   end)
                  (adds_no_start_for_each cb messages)) as H.
    destruct (H (ltac:(destruct upstream;
                       [apply adds_no_start_flush | apply adds_no_start_throw]))
                {| aggregatedResponse := []; trace := [CallOnStart] |})
      as (added & E & F).
    simpl in E. exists added. split; [|exact F].
    match goal with
    | |- fst (match ?x with _ => _ end) = _ =>
        destruct x as [[[]|e] s'] eqn:Ex
    end; simpl in *; exact E.
  - exists []. split; reflexivity.
Qed.

(** ** [createEventStreamTransformer] *)

Section Framing.

Variable customParser : option AIStreamParser.

(** A termination event calls [terminate] and nothing else. *)
Lemma onParse_termination (ev : ParseEvent) (c : FramerController) :
  is_termination ev = true ->
  onParse customParser ev c
  = (Normal tt,
     {| enqueued := enqueued c; terminated := true;
        handled := handled c ++ [ev]; hook_calls := hook_calls c |}).
Proof.
  intros H. unfold onParse, bind, note_handled, modify. simpl.
  rewrite H. reflexivity.
Qed.

(** After [terminate] no event changes what was enqueued. *)
Lemma onParse_after_terminate (ev : ParseEvent) (c : FramerController) :
  terminated c = true ->
  enqueued (snd (onParse customParser ev c)) = enqueued c
  /\ terminated (snd (onParse customParser ev c)) = true.
Proof.
  intros Ht. unfold onParse, bind, note_handled, modify. simpl.
  destruct (is_termination ev); [simpl; auto|].
  destruct ev as [e|v]; [|simpl; auto].
  destruct customParser as [f|]; simpl.
  - unfold call_customParser. simpl.
    destruct (f (data e)) as [[m|]|err]; simpl; auto.
    destruct (truthy m); simpl; auto.
    unfold controller_enqueue. simpl. rewrite Ht. simpl. auto.
  - destruct (truthy (data e)); simpl; auto.
    unfold controller_enqueue. simpl. rewrite Ht. simpl. auto.
Qed.

Lemma for_each_after_terminate (evs : list ParseEvent) (c : FramerController) :
  terminated c = true ->
  enqueued (snd (for_each (onParse customParser) evs c)) = enqueued c
  /\ terminated (snd (for_each (onParse customParser) evs c)) = true.
Proof.
  revert c; induction evs as [|ev evs IH]; intros c Ht; simpl; [auto|].
  unfold bind. destruct (onParse_after_terminate ev c Ht) as [He Ht'].
  destruct (onParse customParser ev c) as [[[]|err] c1]; simpl in *.
  - destruct (IH c1 Ht') as [He2 Ht2]. split; congruence.
  - auto.
Qed.

(** The hook is called on the event at hand or not at all, and only on an
    event that is not a termination event. *)
Lemma onParse_hook_calls (ev : ParseEvent) (c : FramerController) :
  exists added,
    hook_calls (snd (onParse customParser ev c)) = hook_calls c ++ added
    /\ Forall (fun e => is_termination (Event e) = false) added.
Proof.
  unfold onParse, bind, note_handled, modify. simpl.
  destruct (is_termination ev) eqn:Hterm.
  { exists []. simpl. now rewrite app_nil_r. }
  destruct ev as [e|v].
  2:{ exists []. simpl. now rewrite app_nil_r. }
  destruct customParser as [f|]; simpl.
  - exists [e]. unfold call_customParser. simpl. split; [|now constructor].
    destruct (f (data e)) as [[m|]|err]; simpl; auto.
    destruct (truthy m); simpl; auto.
    unfold controller_enqueue. simpl. destruct (terminated c); reflexivity.
  - exists []. rewrite app_nil_r. split; [|constructor].
    destruct (truthy (data e)); simpl; auto.
    unfold controller_enqueue. simpl. destruct (terminated c); reflexivity.
Qed.

Lemma for_each_hook_calls (evs : list ParseEvent) (c : FramerController) :
  Forall (fun e => is_termination (Event e) = false) (hook_calls c) ->
  Forall (fun e => is_termination (Event e) = false)
    (hook_calls (snd (for_each (onParse customParser) evs c))).
Proof.
  revert c; induction evs as [|ev evs IH]; intros c Hc; simpl; [exact Hc|].
  unfold bind. destruct (onParse_hook_calls ev c) as (added & E & F).
  destruct (onParse customParser ev c) as [[[]|err] c1]; simpl in *.
  - apply IH. rewrite E. apply Forall_app. auto.
  - rewrite E. apply Forall_app. auto.
Qed.

(** From a termination event on, the rest of the events of the same
    [feed] leave what was enqueued as it is. *)
Lemma for_each_reaches_termination
  (pre : list ParseEvent) (ev : ParseEvent) (rest : list ParseEvent)
  (c c1 : FramerController) :
  for_each (onParse customParser) pre c = (Normal tt, c1) ->
  is_termination ev = true ->
  enqueued (snd (for_each (onParse customParser) (pre ++ ev :: rest) c))
  = enqueued c1
  /\ terminated (snd (for_each (onParse customParser) (pre ++ ev :: rest) c))
     = true.
Proof.
  intros Hpre Hterm. rewrite for_each_app, Hpre. cbn [for_each]. unfold bind.
  rewrite (onParse_termination ev c1 Hterm).
  apply (for_each_after_terminate rest
           {| enqueued := enqueued c1; terminated := true;
              handled := handled c1 ++ [ev]; hook_calls := hook_calls c1 |}
           eq_refl).
Qed.

Variable P : EventSourceParser.

Lemma transform_hook_calls (f : Framer P) (chunk : list byte) :
  Forall (fun e => is_termination (Event e) = false) (hook_calls (controller f)) ->
  Forall (fun e => is_termination (Event e) = false)
    (hook_calls (controller (snd (framer_transform P customParser chunk f)))).
Proof.
  intros H. unfold framer_transform.
  destruct (feed P (eventSourceParser f) (TextDecoder_decode chunk)) as [p' evs].
  pose proof (for_each_hook_calls evs (controller f) H) as H'.
  destruct (for_each (onParse customParser) evs (controller f)) as [r c'].
  exact H'.
Qed.

Lemma write_hook_calls (chunks : list (list byte)) (f : Framer P) :
  Forall (fun e => is_termination (Event e) = false) (hook_calls (controller f)) ->
  Forall (fun e => is_termination (Event e) = false)
    (hook_calls (controller (snd (framer_write customParser chunks f)))).
Proof.
  revert f. induction chunks as [|chunk chunks IH]; intros f H;
    unfold framer_write; cbn [write_chunks]; [exact H|].
  destruct (framer_terminated f); [exact H|].
  unfold bind. cbn [createEventStreamTransformer transform].
  pose proof (transform_hook_calls f chunk H) as H1.
  destruct (framer_transform P customParser chunk f) as [[[]|e] f1];
    [apply IH|]; exact H1.
Qed.

Lemma run_hook_calls (b : Body) :
  Forall (fun e => is_termination (Event e) = false)
    (hook_calls (controller (snd (framer_run P customParser b)))).
Proof.
  unfold framer_run, transform_stream, bind.
  cbn [createEventStreamTransformer start flush framer_start modify].
  pose proof (write_hook_calls (chunks b)
                {| eventSourceParser := createParser P;
                   controller := controller (framer_init P) |}
                (Forall_nil _)) as H.
  unfold framer_write in H.
  destruct (write_chunks _ _ _ _) as [[[]|e] f1]; [|exact H].
  destruct (framer_terminated f1); [exact H|].
  destruct (body_end b); exact H.
Qed.

(** A framer whose controller was terminated is given no chunk. *)
Lemma write_terminated (f : Framer P) (chunks : list (list byte)) :
  terminated (controller f) = true ->
  framer_write customParser chunks f = (Normal tt, f).
Proof.
  intros H. unfold framer_write. destruct chunks as [|chunk chunks];
    cbn [write_chunks]; [reflexivity|].
  unfold framer_terminated. now rewrite H.
Qed.

End Framing.

Lemma not_termination (e : ParsedEvent) :
  is_termination (Event e) = false ->
  data e <> js "[DONE]" /\ event e <> Some (js "done").
Proof.
  simpl. intros H. apply orb_false_iff in H as [Hd He]. split.
  - now apply jseqb_neq.
  - intros E. rewrite E in He. apply jseqb_neq in He. now apply He.
Qed.

(** C9.  The token-extraction hook is never called on a termination event:
    whatever the parser, the hook and the body, every event whose data the
    hook was called on fails the termination test, so its data is not
    ["[DONE]"] and its event type is not ["done"].  The same holds for a
    whole call of [AIStream]. *)
Theorem hook_never_called_on_termination
  (P : EventSourceParser) (customParser : option AIStreamParser)
  (b : Body) (response : Response)
  (callbacks : option AIStreamCallbacks) (taken : nat) :
  let seen e := is_termination (Event e) = false
                /\ data e <> js "[DONE]" /\ event e <> Some (js "done") in
  Forall seen (hook_calls (controller (snd (framer_run P customParser b))))
  /\ Forall seen
       (hook_calls (framing (AIStream P response customParser callbacks taken))).
Proof.
  intros seen.
  assert (H : forall b',
             Forall seen (hook_calls (controller
                            (snd (framer_run P customParser b'))))).
  { intros b'.
    eapply Forall_impl; [|apply (run_hook_calls customParser P b')].
    intros e He. split; [exact He | now apply not_termination]. }
  split; [apply H|].
  unfold AIStream. destruct (negb (ok response)).
  - destruct (body response) as [b'|].
    + destruct (error_stream_start (getReader b')). constructor.
    + constructor.
  - destruct (framer_readable _ _) as [messages upstream].
    destruct (run_callbacks callbacks messages upstream). simpl. apply H.
Qed.

(** C3, on an input where the code departs from it: the framer does not
    stop at the termination event when more events follow it in the same
    chunk.  The body here is one chunk with
    the events ["a"], ["b"], ["[DONE]"] and ["x"].  The parser dispatches
    all four to its callback within the one call of [feed]; the callback
    terminates the stream on ["[DONE]"] and returns, and is then called on
    ["x"]: the hook is called on it, and the attempt to enqueue its result
    throws a [TypeError] out of [transform].  So the stream [AIStream]
    returns does not close after ["a"] and ["b"]: with ["a"] read and ["b"]
    still queued when [transform] throws, the consumer gets ["a"] only and
    then the [TypeError]; ["b"] is lost and [onCompletion] is not called. *)
Theorem framing_continues_after_termination :
  let chunk :=
    bytes (lines ["data: a"; ""; "data: b"; ""; "data: [DONE]"; "";
                  "data: x"; ""]) in
  let framed := framer_run sse_parser (Some identity_hook)
                  {| chunks := [chunk]; body_end := Closes |} in
  let r := AIStream sse_parser (ok_response [chunk]) (Some identity_hook)
             (Some quiet_callbacks) 1 in
  ~ framing_stops_at_termination (controller (snd framed))
  /\ handled (controller (snd framed))
     = [plain_event "a"; plain_event "b"; plain_event "[DONE]";
        plain_event "x"]
  /\ map data (hook_calls (controller (snd framed)))
     = [js "a"; js "b"; js "x"]
  /\ enqueued (controller (snd framed)) = [js "a"; js "b"]
  /\ terminated (controller (snd framed)) = true
  /\ (exists message, fst framed = Throw (TypeError message))
  /\ tokens r = [js "a"]
  /\ output r = [bytes "a"]
  /\ (exists message, ending r = Errored (TypeError message))
  /\ completion_calls (callback_trace r) = [].
Proof.
  intros chunk framed r. split.
  - intros H.
    specialize (H [plain_event "a"; plain_event "b"] (plain_event "[DONE]")
                  [plain_event "x"]).
    assert (E : [plain_event "x"] = []) by (apply H; vm_compute; reflexivity).
    discriminate E.
  - repeat split; try (vm_compute; reflexivity);
      eexists; vm_compute; reflexivity.
Qed.

(** What the termination does stop.  When the callback of the parser
    reaches a termination event [ev] while a chunk is transformed, nothing
    is enqueued any more:
    what has been enqueued when the framer is done with the chunk, and
    after any later chunks written to it, is what had been enqueued when
    [ev] was reached.  The later chunks are not given to the parser: the
    framer is left as the chunk with [ev] left it. *)
Theorem nothing_enqueued_after_termination
  (P : EventSourceParser) (customParser : option AIStreamParser)
  (f : Framer P) (chunk : list byte) (later : list (list byte))
  (pre : list ParseEvent) (ev : ParseEvent) (rest : list ParseEvent)
  (c1 : FramerController) :
  terminated (controller f) = false ->
  snd (feed P (eventSourceParser f) (TextDecoder_decode chunk))
  = pre ++ ev :: rest ->
  for_each (onParse customParser) pre (controller f) = (Normal tt, c1) ->
  is_termination ev = true ->
  let after_chunk := snd (framer_transform P customParser chunk f) in
  let final := snd (framer_write customParser (chunk :: later) f) in
  enqueued (controller final) = enqueued c1
  /\ terminated (controller final) = true
  /\ final = after_chunk.
Proof.
  intros Hopen Hfeed Hpre Hterm after_chunk final.
  assert (H1 : enqueued (controller after_chunk) = enqueued c1
               /\ terminated (controller after_chunk) = true).
  { unfold after_chunk, framer_transform.
    destruct (feed P (eventSourceParser f) (TextDecoder_decode chunk))
      as [p' evs]. simpl in Hfeed. subst evs.
    pose proof (for_each_reaches_termination customParser pre ev rest
                  (controller f) Hpre Hterm) as H.
    destruct (for_each (onParse customParser) (pre ++ ev :: rest) (controller f))
      as [r c']. exact H. }
  destruct H1 as [He Ht].
  assert (Hfinal : final = after_chunk).
  { unfold final, framer_write. cbn [write_chunks].
    replace (framer_terminated f) with false by (symmetry; exact Hopen).
    unfold bind.
    cbn [createEventStreamTransformer transform]. fold after_chunk.
    pose proof (write_terminated customParser after_chunk later Ht) as Hw.
    unfold framer_write in Hw. unfold after_chunk in *.
    destruct (framer_transform P customParser chunk f) as [[[]|e] f1];
      cbn [snd] in *; [now rewrite Hw | reflexivity]. }
  rewrite Hfinal. auto.
Qed.

Lemma nothing_enqueued_after_termination_witness :
  let final :=
    snd (framer_write None
           [bytes (lines ["data: a"; ""; "data: [DONE]"; ""; "data: x"; ""]);
            bytes (lines ["data: y"; ""])]
           (framer_init sse_parser)) in
  enqueued (controller final) = [js "a"]
  /\ terminated (controller final) = true
  /\ final
     = snd (framer_transform sse_parser None
              (bytes (lines ["data: a"; ""; "data: [DONE]"; ""; "data: x"; ""]))
              (framer_init sse_parser)).
Proof.
  apply (@nothing_enqueued_after_termination sse_parser None
           (framer_init sse_parser)
           (bytes (lines ["data: a"; ""; "data: [DONE]"; ""; "data: x"; ""]))
           [bytes (lines ["data: y"; ""])]
           [plain_event "a"] (plain_event "[DONE]") [plain_event "x"]
           {| enqueued := [js "a"]; terminated := false;
              handled := [plain_event "a"]; hook_calls := [] |});
    vm_compute; reflexivity.
Defined.

(** ** [TextEncoder.encode] and concatenation *)

Lemma pairs_ind {A} (Q : list A -> Prop) :
  Q [] -> (forall c, Q [c]) ->
  (forall c d t, Q t -> Q (d :: t) -> Q (c :: d :: t)) ->
  forall l, Q l.
Proof.
  intros H0 H1 H2 l.
  assert (H : Q l /\ forall c, Q (c :: l)).
  { induction l as [|d t [IHt IHc]]; split; auto. }
  apply H.
Qed.

Lemma encode_cons (c : N) (t : jsstring) :
  TextEncoder_encode (c :: t)
  = if is_high_surrogate c then
      match t with
      | d :: t' =>
          if is_low_surrogate d
          then utf8_of_code_point (pair_code_point c d) ++ TextEncoder_encode t'
          else utf8_of_code_point replacement ++ TextEncoder_encode t
      | [] => utf8_of_code_point replacement
      end
    else if is_low_surrogate c
    then utf8_of_code_point replacement ++ TextEncoder_encode t
    else utf8_of_code_point c ++ TextEncoder_encode t.
Proof. reflexivity. Qed.

Lemma ends_with_high_surrogate_tail (d : N) (t : jsstring) :
  ends_with_high_surrogate (d :: t) = false ->
  ends_with_high_surrogate t = false.
Proof.
  destruct t as [|e t]; [reflexivity|]. intros H. exact H.
Qed.

(** Encoding commutes with concatenation as long as the cut does not fall
    after a high surrogate. *)
Lemma encode_app (a b : jsstring) :
  ends_with_high_surrogate a = false ->
  TextEncoder_encode (a ++ b) = TextEncoder_encode a ++ TextEncoder_encode b.
Proof.
  revert b. induction a as [|c|c d t IHt IHdt] using pairs_ind; intros b Ha.
  - reflexivity.
  - simpl in Ha. cbn [app]. rewrite !encode_cons, Ha.
    destruct (is_low_surrogate c); cbn [TextEncoder_encode];
      now rewrite app_nil_r.
  - change ((c :: d :: t) ++ b) with (c :: (d :: t) ++ b).
    rewrite (encode_cons c ((d :: t) ++ b)), (encode_cons c (d :: t)).
    assert (Hdt : ends_with_high_surrogate (d :: t) = false) by exact Ha.
    destruct (is_high_surrogate c).
    + cbn [app]. destruct (is_low_surrogate d).
      * rewrite IHt, app_assoc; [reflexivity|].
        apply (@ends_with_high_surrogate_tail d t Hdt).
      * change (d :: t ++ b) with ((d :: t) ++ b).
        now rewrite IHdt, app_assoc.
    + destruct (is_low_surrogate c); now rewrite IHdt, app_assoc.
Qed.

Lemma ends_with_high_surrogate_app (a b : jsstring) :
  ends_with_high_surrogate a = false ->
  ends_with_high_surrogate b = false ->
  ends_with_high_surrogate (a ++ b) = false.
Proof.
  intros Ha Hb. induction a as [|c a IH]; [exact Hb|].
  destruct a as [|d a].
  - simpl. destruct b; [exact Ha | exact Hb].
  - change (ends_with_high_surrogate ((d :: a) ++ b) = false). apply IH.
    exact Ha.
Qed.

Lemma encode_concat (ts : list jsstring) :
  Forall (fun t => ends_with_high_surrogate t = false) ts ->
  List.concat (map TextEncoder_encode ts) = TextEncoder_encode (List.concat ts).
Proof.
  induction 1 as [|t ts Ht _ IH]; simpl; [reflexivity|].
  now rewrite encode_app, IH.
Qed.

(** ** The pipeline on a stream without a termination event *)

Section Pipeline.

Variable customParser : option AIStreamParser.

(** An event that is not a termination event, handled while the readable
    side is open by a hook that returns: its token is enqueued. *)
Lemma onParse_token (ev : ParseEvent) (c : FramerController) :
  is_termination ev = false ->
  terminated c = false ->
  hook_returns customParser [ev] ->
  exists c',
    onParse customParser ev c = (Normal tt, c')
    /\ enqueued c' = enqueued c ++ event_token customParser ev
    /\ terminated c' = false.
Proof.
  intros Hterm Hopen Hhook.
  unfold onParse, bind, note_handled, modify. simpl. rewrite Hterm.
  destruct ev as [e|v].
  2:{ eexists. split; [reflexivity|]. simpl. now rewrite app_nil_r. }
  unfold event_token, extraction. destruct customParser as [f|].
  - destruct (Hhook f e eq_refl (or_introl eq_refl)) as [r Hr].
    unfold call_customParser. simpl. rewrite Hr.
    destruct r as [m|].
    + destruct (truthy m).
      * unfold controller_enqueue. simpl. rewrite Hopen.
        eexists. split; [reflexivity|]. simpl. auto.
      * eexists. split; [reflexivity|]. simpl. now rewrite app_nil_r.
    + eexists. split; [reflexivity|]. simpl. now rewrite app_nil_r.
  - simpl. destruct (truthy (data e)).
    + unfold controller_enqueue. simpl. rewrite Hopen.
      eexists. split; [reflexivity|]. simpl. auto.
    + eexists. split; [reflexivity|]. simpl. now rewrite app_nil_r.
Qed.

Lemma hook_returns_cons (ev : ParseEvent) (evs : list ParseEvent) :
  hook_returns customParser (ev :: evs) ->
  hook_returns customParser [ev] /\ hook_returns customParser evs.
Proof.
  intros H. split; intros f e Hf Hin; apply (H f e Hf).
  - destruct Hin as [<-|[]]. now left.
  - now right.
Qed.

Lemma hook_returns_app (evs1 evs2 : list ParseEvent) :
  hook_returns customParser (evs1 ++ evs2) ->
  hook_returns customParser evs1 /\ hook_returns customParser evs2.
Proof.
  intros H. split; intros f e Hf Hin; apply (H f e Hf); apply in_or_app; auto.
Qed.

Lemma for_each_tokens (evs : list ParseEvent) (c : FramerController) :
  Forall (fun ev => is_termination ev = false) evs ->
  terminated c = false ->
  hook_returns customParser evs ->
  exists c',
    for_each (onParse customParser) evs c = (Normal tt, c')
    /\ enqueued c' = enqueued c ++ expected_tokens customParser evs
    /\ terminated c' = false.
Proof.
  intros Hterm. revert c.
  induction Hterm as [|ev evs Hev _ IH]; intros c Hopen Hhook.
  - exists c. simpl. now rewrite app_nil_r.
  - apply hook_returns_cons in Hhook as [Hhd Htl].
    destruct (onParse_token c Hev Hopen Hhd) as (c1 & E1 & Q1 & T1).
    destruct (IH c1 T1 Htl) as (c2 & E2 & Q2 & T2).
    exists c2. cbn [for_each]. unfold bind. rewrite E1.
    split; [exact E2|]. split; [|exact T2].
    rewrite Q2, Q1. unfold expected_tokens. simpl. now rewrite app_assoc.
Qed.

Variable P : EventSourceParser.

Lemma transform_tokens (chunk : list byte) (f : Framer P) :
  terminated (controller f) = false ->
  Forall (fun ev => is_termination ev = false)
    (snd (feed P (eventSourceParser f) (TextDecoder_decode chunk))) ->
  hook_returns customParser
    (snd (feed P (eventSourceParser f) (TextDecoder_decode chunk))) ->
  exists f',
    framer_transform P customParser chunk f = (Normal tt, f')
    /\ eventSourceParser f'
       = fst (feed P (eventSourceParser f) (TextDecoder_decode chunk))
    /\ terminated (controller f') = false
    /\ enqueued (controller f')
       = enqueued (controller f)
         ++ expected_tokens customParser
              (snd (feed P (eventSourceParser f) (TextDecoder_decode chunk))).
Proof.
  intros Hopen Hterm Hhook. unfold framer_transform.
  destruct (feed P (eventSourceParser f) (TextDecoder_decode chunk))
    as [p' evs]. simpl in *.
  destruct (for_each_tokens (controller f) Hterm Hopen Hhook)
    as (c' & E & Q & T).
  rewrite E. eexists. split; [reflexivity|]. simpl. auto.
Qed.

Lemma write_tokens (chunks : list (list byte)) (f : Framer P) :
  terminated (controller f) = false ->
  Forall (fun ev => is_termination ev = false)
    (dispatched P (eventSourceParser f) chunks) ->
  hook_returns customParser (dispatched P (eventSourceParser f) chunks) ->
  exists f',
    framer_write customParser chunks f = (Normal tt, f')
    /\ terminated (controller f') = false
    /\ enqueued (controller f')
       = enqueued (controller f)
         ++ expected_tokens customParser
              (dispatched P (eventSourceParser f) chunks).
Proof.
  revert f. induction chunks as [|chunk chunks IH]; intros f Hopen Hterm Hhook.
  - exists f. simpl. rewrite app_nil_r. auto.
  - cbn [dispatched] in Hterm, Hhook |- *.
    destruct (transform_tokens chunk f Hopen) as (f1 & E1 & P1 & T1 & Q1).
    + destruct (feed P (eventSourceParser f) (TextDecoder_decode chunk)).
      now apply Forall_app in Hterm as [Hterm1 _].
    + destruct (feed P (eventSourceParser f) (TextDecoder_decode chunk)).
      now apply hook_returns_app in Hhook as [Hhook1 _].
    + destruct (feed P (eventSourceParser f) (TextDecoder_decode chunk))
        as [p' evs] eqn:Efeed. cbn [fst snd] in *.
      apply Forall_app in Hterm as [_ Hterm2].
      apply hook_returns_app in Hhook as [_ Hhook2].
      rewrite <- P1 in Hterm2, Hhook2.
      destruct (IH f1 T1 Hterm2 Hhook2) as (f2 & E2 & T2 & Q2).
      exists f2. split.
      * unfold framer_write in *. cbn [write_chunks].
        replace (framer_terminated f) with false by (symmetry; exact Hopen).
        unfold bind. cbn [createEventStreamTransformer transform].
        now rewrite E1.
      * split; [exact T2|]. rewrite Q2, Q1, P1.
        unfold expected_tokens. rewrite flat_map_app. now rewrite app_assoc.
Qed.

(** The framer on a body that closes and holds no termination event. *)
Lemma run_tokens (b : Body) :
  body_end b = Closes ->
  Forall (fun ev => is_termination ev = false)
    (dispatched P (createParser P) (chunks b)) ->
  hook_returns customParser (dispatched P (createParser P) (chunks b)) ->
  exists f',
    framer_run P customParser b = (Normal tt, f')
    /\ enqueued (controller f')
       = expected_tokens customParser
           (dispatched P (createParser P) (chunks b)).
Proof.
  intros Hend Hterm Hhook.
  destruct (write_tokens (chunks b) (framer_init P) eq_refl Hterm Hhook)
    as (f' & E & T & Q).
  exists f'. split; [|exact Q].
  unfold framer_run, transform_stream, bind.
  cbn [createEventStreamTransformer start flush framer_start modify].
  unfold framer_write in E.
  change {| eventSourceParser := createParser P;
            controller := controller (framer_init P) |}
    with (framer_init P).
  rewrite E.
  replace (framer_terminated f') with false by (symmetry; exact T).
  now rewrite Hend.
Qed.

End Pipeline.

Lemma enqueued_chunks_app (t1 t2 : list Action) :
  enqueued_chunks (t1 ++ t2) = enqueued_chunks t1 ++ enqueued_chunks t2.
Proof.
  induction t1 as [|a t1 IH]; simpl; [reflexivity|].
  destruct a; simpl; now rewrite IH.
Qed.

Lemma enqueued_chunks_if_supplied {A} (o : option A) (a : Action) :
  (forall c, a <> Enqueue c) -> enqueued_chunks (if_supplied o a) = [].
Proof.
  intros H. destruct o; simpl; [|reflexivity].
  destruct a; try reflexivity. now destruct (H chunk).
Qed.

Lemma enqueued_chunks_lifecycle (cb : AIStreamCallbacks)
  (messages : list jsstring) :
  enqueued_chunks (lifecycle_order cb messages)
  = map TextEncoder_encode messages.
Proof.
  unfold lifecycle_order. rewrite !enqueued_chunks_app.
  rewrite !enqueued_chunks_if_supplied by discriminate.
  rewrite app_nil_r. simpl.
  induction messages as [|m messages IH]; simpl; [reflexivity|].
  rewrite enqueued_chunks_app, IH.
  now rewrite enqueued_chunks_if_supplied by discriminate.
Qed.

(** C1, as the specification words it, fails on its last part: every
    token is encoded on its own, and a surrogate pair cut between two tokens
    is encoded as two U+FFFD where the concatenation has one code point.
    The stream has two events and no termination event, the tokens are the
    extraction results, and the output is not the encoding of their
    concatenation. *)
Lemma output_is_not_encoding_of_concatenation :
  let response := ok_response [bytes (lines ["data: D83D"; ""; "data: DE00"; ""])] in
  let evs := dispatched sse_parser sse_init
               [bytes (lines ["data: D83D"; ""; "data: DE00"; ""])] in
  let r := AIStream sse_parser response (Some escape_hook) None 0 in
  Forall (fun ev => is_termination ev = false) evs
  /\ tokens r = expected_tokens (Some escape_hook) evs
  /\ tokens r = [[55357]; [56832]]
  /\ ending r = Closed
  /\ List.concat (output r) = [xef; xbf; xbd; xef; xbf; xbd]
  /\ TextEncoder_encode (List.concat (tokens r)) = [xf0; x9f; x98; x80]
  /\ List.concat (output r) <> TextEncoder_encode (List.concat (tokens r)).
Proof.
  vm_compute. repeat split; try discriminate.
  repeat constructor.
Qed.

(** C1, amended.  For a response that is ok and a body that closes, when
    the events the parser dispatches from the chunks, each decoded on its
    own, contain no termination event, and neither the hook nor a callback
    fails: the tokens given to the callbacks transformer are, in order, the
    non-empty extraction results of the data of the events (the data itself
    without a hook); the output chunks are the UTF-8 encodings of the
    tokens, one chunk per token, and the stream closes; and the bytes of the
    output are the UTF-8 encoding of the concatenated tokens whenever no
    token ends with a high surrogate. *)
Theorem pipeline_tokens_and_bytes
  (P : EventSourceParser) (response : Response)
  (customParser : option AIStreamParser)
  (callbacks : option AIStreamCallbacks) (taken : nat) :
  ok response = true ->
  body_end (body_or_empty response) = Closes ->
  Forall (fun ev => is_termination ev = false)
    (dispatched P (createParser P) (chunks (body_or_empty response))) ->
  hook_returns customParser
    (dispatched P (createParser P) (chunks (body_or_empty response))) ->
  callbacks_resolve (callbacks_or_empty callbacks) ->
  let r := AIStream P response customParser callbacks taken in
  tokens r
  = expected_tokens customParser
      (dispatched P (createParser P) (chunks (body_or_empty response)))
  /\ output r = map TextEncoder_encode (tokens r)
  /\ ending r = Closed
  /\ (Forall (fun t => ends_with_high_surrogate t = false) (tokens r) ->
      List.concat (output r) = TextEncoder_encode (List.concat (tokens r))).
Proof.
  intros Hok Hend Hterm Hhook Hres r.
  assert (Hr : tokens r
               = expected_tokens customParser
                   (dispatched P (createParser P)
                      (chunks (body_or_empty response)))
               /\ output r = map TextEncoder_encode (tokens r)
               /\ ending r = Closed).
  { unfold r, AIStream. rewrite Hok. cbn [negb].
    fold (body_or_empty response).
    destruct (@run_tokens customParser P (body_or_empty response)
                Hend Hterm Hhook) as (f' & E & Q).
    rewrite E. unfold framer_readable. cbn [fst snd]. rewrite Q.
    rewrite (run_callbacks_resolves callbacks _ Hres). cbn.
    rewrite enqueued_chunks_lifecycle. auto. }
  destruct Hr as (Ht & Ho & He). repeat split; auto.
  intros Hsur. rewrite Ho. now apply encode_concat.
Qed.

Lemma pipeline_tokens_and_bytes_witness :
  let r := AIStream sse_parser
             (ok_response [bytes (lines ["data: Hel"]);
                           bytes (lines [""; "retry: 10"; "data:"; ""; "data: lo"; ""])])
             None (Some quiet_callbacks) 0 in
  tokens r = [js "Hel"; js "lo"]
  /\ output r = map TextEncoder_encode (tokens r)
  /\ ending r = Closed
  /\ (Forall (fun t => ends_with_high_surrogate t = false) (tokens r) ->
      List.concat (output r) = TextEncoder_encode (List.concat (tokens r))).
Proof.
  apply (@pipeline_tokens_and_bytes sse_parser
           (ok_response [bytes (lines ["data: Hel"]);
                         bytes (lines [""; "retry: 10"; "data:"; ""; "data: lo"; ""])])
           None (Some quiet_callbacks) 0%nat).
  - reflexivity.
  - reflexivity.
  - vm_compute. repeat constructor.
  - intros f e Hf. discriminate Hf.
  - exact quiet_callbacks_resolve.
Defined.

(** The decoder is not asked to stream: a character whose bytes fall in two
    chunks reaches the parser as two U+FFFD, where the same bytes in one
    chunk give the character. *)
Lemma split_character_is_replaced :
  tokens (AIStream sse_parser
            (ok_response [bytes "data: " ++ [xc3]; [xa9] ++ bytes (lines [""; ""])])
            None None 0)
  = [[65533; 65533]]
  /\ tokens (AIStream sse_parser
               (ok_response [bytes "data: " ++ [xc3; xa9] ++ bytes (lines [""; ""])])
               None None 0)
     = [[233]].
Proof. vm_compute. split; reflexivity. Qed.

(** ** Responses that are not ok *)

(** A response that is not ok gives a stream that is never given a chunk,
    and neither the framer nor the callbacks transformer is made. *)
Lemma not_ok_no_output (P : EventSourceParser) (response : Response)
  (customParser : option AIStreamParser)
  (callbacks : option AIStreamCallbacks) (taken : nat) :
  ok response = false ->
  let r := AIStream P response customParser callbacks taken in
  output r = [] /\ tokens r = [] /\ callback_trace r = [].
Proof.
  intros Hok. unfold AIStream. rewrite Hok. simpl.
  destruct (body response) as [b|]; [|auto].
  destruct (error_stream_start (getReader b)). auto.
Qed.

(** The first chunk of the body of a response that is not ok is decoded
    and becomes the text of the error; one [read()] was made. *)
Lemma error_body_surfaced (P : EventSourceParser) (response : Response)
  (b : Body) (value : list byte) (rest : list (list byte))
  (customParser : option AIStreamParser)
  (callbacks : option AIStreamCallbacks) (taken : nat) :
  ok response = false ->
  body response = Some b ->
  chunks b = value :: rest ->
  let r := AIStream P response customParser callbacks taken in
  ending r = Errored (Error (js "Response error: " ++ TextDecoder_decode value))
  /\ error_reader r
     = Some {| unread := {| chunks := rest; body_end := body_end b |};
               reads := 1 |}.
Proof.
  intros Hok Hbody Hchunks. unfold AIStream. rewrite Hok, Hbody. simpl.
  unfold error_stream_start, bind, reader_read, getReader. simpl.
  rewrite Hchunks. simpl. auto.
Qed.

(** C5.  For a response with [ok = false] and a body whose first chunk
    decodes to ["rate limited"], the returned stream is errored, without
    having been given a chunk, with an [Error] whose message is
    ["Response error: rate limited"] (so the first read rejects with it, and
    the message contains that text), and exactly one chunk has been read
    from the body: one [read()] was made and the chunks after the first are
    still unread. *)
Theorem rate_limited_is_surfaced
  (P : EventSourceParser) (response : Response) (b : Body)
  (value : list byte) (rest : list (list byte))
  (customParser : option AIStreamParser)
  (callbacks : option AIStreamCallbacks) (taken : nat) :
  ok response = false ->
  body response = Some b ->
  chunks b = value :: rest ->
  TextDecoder_decode value = js "rate limited" ->
  let r := AIStream P response customParser callbacks taken in
  ending r = Errored (Error (js "Response error: rate limited"))
  /\ (forall e, ending r = Errored e ->
                includes (message_of e) (js "Response error: rate limited") = true)
  /\ output r = []
  /\ exists reader,
       error_reader r = Some reader
       /\ reads reader = 1%nat
       /\ chunks (unread reader) = rest.
Proof.
  intros Hok Hbody Hchunks Htext r.
  destruct (@error_body_surfaced P response b value rest customParser callbacks
              taken Hok Hbody Hchunks) as [He Hr].
  fold r in He, Hr. rewrite Htext in He.
  change (js "Response error: " ++ js "rate limited")
    with (js "Response error: rate limited") in He.
  split; [exact He|]. split.
  - intros e E. rewrite He in E. injection E as <-. apply includes_refl.
  - split.
    + apply (@not_ok_no_output P response customParser callbacks taken Hok).
    + eexists. split; [exact Hr|]. split; reflexivity.
Qed.

Lemma rate_limited_is_surfaced_witness :
  let r := AIStream sse_parser
             {| ok := false; status := 500;
                body := Some {| chunks := [bytes "rate limited"; bytes " again"];
                                body_end := Closes |} |}
             None (Some quiet_callbacks) 0 in
  ending r = Errored (Error (js "Response error: rate limited"))
  /\ (forall e, ending r = Errored e ->
                includes (message_of e) (js "Response error: rate limited") = true)
  /\ output r = []
  /\ exists reader,
       error_reader r = Some reader
       /\ reads reader = 1%nat
       /\ chunks (unread reader) = [bytes " again"].
Proof.
  apply (@rate_limited_is_surfaced sse_parser
           {| ok := false; status := 500;
              body := Some {| chunks := [bytes "rate limited"; bytes " again"];
                              body_end := Closes |} |}
           {| chunks := [bytes "rate limited"; bytes " again"];
              body_end := Closes |}
           (bytes "rate limited") [bytes " again"]
           None (Some quiet_callbacks) 0%nat);
    vm_compute; reflexivity.
Defined.

(** A body whose first chunk has no bytes gives the error with an empty
    text after the marker. *)
Lemma zero_length_error_body (P : EventSourceParser) (st : N)
  (rest : list (list byte)) (e : UpstreamEnd)
  (customParser : option AIStreamParser)
  (callbacks : option AIStreamCallbacks) (taken : nat) :
  ending (AIStream P {| ok := false; status := st;
                        body := Some {| chunks := [] :: rest; body_end := e |} |}
            customParser callbacks taken)
  = Errored (Error (js "Response error: ")).
Proof. reflexivity. Qed.

(** C4, on the input where the code departs from it: the body of a
    response that is not ok exists and closes without a chunk.  [start]
    reads [done], calls neither [controller.error] nor [controller.close],
    and the returned stream is never errored and never closed: no error is
    surfaced, a read of it stays pending.  (It is given no chunk either.) *)
Theorem empty_error_body_never_settles
  (P : EventSourceParser) (st : N) (customParser : option AIStreamParser)
  (callbacks : option AIStreamCallbacks) (taken : nat) :
  let r := AIStream P {| ok := false; status := st;
                         body := Some {| chunks := []; body_end := Closes |} |}
             customParser callbacks taken in
  ending r = NeverSettles
  /\ (forall e, ending r <> Errored e)
  /\ output r = []
  /\ error_reader r
     = Some {| unread := {| chunks := []; body_end := Closes |}; reads := 1 |}.
Proof.
  simpl. repeat split. intros e H. discriminate H.
Qed.

(** ** Responses that are ok *)

Lemma completion_calls_app (t1 t2 : list Action) :
  completion_calls (t1 ++ t2) = completion_calls t1 ++ completion_calls t2.
Proof.
  induction t1 as [|a t1 IH]; simpl; [reflexivity|].
  destruct a; simpl; now rewrite IH.
Qed.

(** C7.  For a response with [ok = true] and [body = null], with callbacks
    that do not fail, the returned stream closes without having been given a
    chunk; no token reaches the callbacks transformer; and when
    [onCompletion] was supplied it is called exactly once, with the empty
    string. *)
Theorem empty_body_success
  (P : EventSourceParser) (response : Response)
  (customParser : option AIStreamParser)
  (callbacks : option AIStreamCallbacks) (taken : nat) :
  ok response = true ->
  body response = None ->
  callbacks_resolve (callbacks_or_empty callbacks) ->
  let r := AIStream P response customParser callbacks taken in
  output r = []
  /\ ending r = Closed
  /\ tokens r = []
  /\ (forall cb f, callbacks = Some cb -> onCompletion cb = Some f ->
                   completion_calls (callback_trace r) = [[]]).
Proof.
  intros Hok Hbody Hres r.
  assert (E : r = {| output := [];
                     ending := Closed;
                     tokens := [];
                     callback_trace :=
                       lifecycle_order (callbacks_or_empty callbacks) [];
                     framing := controller_init;
                     error_reader := None |}).
  { unfold r, AIStream. rewrite Hok, Hbody. cbn [negb].
    change (framer_run P customParser createEmptyReadableStream)
      with (@Normal unit tt, framer_init P).
    unfold framer_readable. cbn [fst snd framer_init controller enqueued
      controller_init].
    rewrite (run_callbacks_resolves callbacks _ Hres).
    now rewrite enqueued_chunks_lifecycle. }
  rewrite E. cbn. repeat split.
  intros cb f -> Hf. cbn. unfold lifecycle_order. cbn.
  rewrite completion_calls_app, Hf. cbn.
  destruct (onStart cb); reflexivity.
Qed.

Lemma empty_body_success_witness :
  let r := AIStream sse_parser {| ok := true; status := 200; body := None |}
             None (Some quiet_callbacks) 0 in
  output r = []
  /\ ending r = Closed
  /\ tokens r = []
  /\ (forall cb f, Some quiet_callbacks = Some cb -> onCompletion cb = Some f ->
                   completion_calls (callback_trace r) = [[]]).
Proof.
  apply (@empty_body_success sse_parser
           {| ok := true; status := 200; body := None |}
           None (Some quiet_callbacks) 0%nat).
  - reflexivity.
  - reflexivity.
  - exact quiet_callbacks_resolve.
Defined.

Lemma filter_start_length (rest : list Action) :
  filter is_start rest = [] ->
  List.length (filter is_start (CallOnStart :: rest)) = 1%nat.
Proof. intros H. simpl. now rewrite H. Qed.

(** C10.  A supplied [onStart] is called exactly once, first of all,
    whatever tokens arrive and also when none does: by the callbacks
    transformer for every sequence of messages, the empty one included, and
    every end of its source; and so by [AIStream] for every response that is
    ok, where a missing or empty body gives no token at all. *)
Theorem onStart_once_at_initialization
  (P : EventSourceParser) (response : Response)
  (customParser : option AIStreamParser)
  (cb : AIStreamCallbacks) (f : Completion unit) (taken : nat) :
  onStart cb = Some f ->
  ok response = true ->
  let r := AIStream P response customParser (Some cb) taken in
  (forall messages upstream,
      exists rest,
        fst (run_callbacks (Some cb) messages upstream) = CallOnStart :: rest
        /\ filter is_start rest = [])
  /\ (exists rest,
         callback_trace r = CallOnStart :: rest /\ filter is_start rest = [])
  /\ List.length (filter is_start (callback_trace r)) = 1%nat
  /\ (chunks (body_or_empty response) = [] -> tokens r = []).
Proof.
  intros Hf Hok r.
  assert (Hr : exists messages upstream,
             callback_trace r = fst (run_callbacks (Some cb) messages upstream)
             /\ tokens r = messages
             /\ (chunks (body_or_empty response) = [] -> messages = [])).
  { unfold r, AIStream. rewrite Hok. cbn [negb].
    fold (body_or_empty response).
    destruct (framer_readable _ _) as [messages upstream] eqn:E.
    exists messages, upstream.
    destruct (run_callbacks (Some cb) messages upstream) as [t e].
    repeat split. intros Hempty.
    unfold framer_readable, framer_run, transform_stream, bind in E.
    rewrite Hempty in E. cbn in E.
    destruct (body_end (body_or_empty response)); cbn in E;
      injection E as <- _; [reflexivity | now destruct taken]. }
  destruct Hr as (messages & upstream & Ht & Htok & Hempty).
  destruct (run_callbacks_starts_once cb messages upstream Hf)
    as (rest & E & F).
  split; [intros ms up; now apply (run_callbacks_starts_once cb ms up Hf)|].
  split; [exists rest; now rewrite Ht|].
  split; [rewrite Ht, E; now apply filter_start_length|].
  intros H. rewrite Htok. now apply Hempty.
Qed.

Lemma onStart_once_at_initialization_witness :
  let r := AIStream sse_parser {| ok := true; status := 204; body := None |}
             None (Some quiet_callbacks) 0 in
  List.length (filter is_start (callback_trace r)) = 1%nat
  /\ tokens r = [].
Proof.
  destruct (@onStart_once_at_initialization sse_parser
              {| ok := true; status := 204; body := None |}
              None quiet_callbacks (Normal tt) 0%nat eq_refl eq_refl)
    as (_ & _ & Hlen & Hempty).
  split; [exact Hlen | exact (Hempty eq_refl)].
Defined.

(** ** [readableFromAsyncIterable] *)

Section Adapter.

Variable T : Type.
Variable I : AsyncIterator T.

(** A stream that is closed or errored stays as it is. *)
Lemma stream_run_settled (s : AdapterStream I) (ops : list (StreamOp T)) :
  stream_state s <> Readable -> stream_run s ops = s.
Proof.
  intros H. unfold stream_run.
  induction ops as [|op ops IH]; simpl; [reflexivity|].
  replace (stream_step s op) with s; [exact IH|].
  unfold stream_step. destruct op, (stream_state s); congruence.
Qed.

(** A step that leaves the stream readable started from a readable stream
    and made no [return] call. *)
Lemma stream_step_readable (s : AdapterStream I) (op : StreamOp T) :
  stream_state (stream_step s op) = Readable ->
  stream_state s = Readable
  /\ return_calls (calls (stream_step s op)) = return_calls (calls s).
Proof.
  unfold stream_step. destruct (stream_state s) eqn:Hs; try (destruct op; congruence).
  intros H. split; [reflexivity|]. destruct op.
  - destruct (queue s); [|reflexivity].
    unfold adapter_pull in *. destruct (next I (it s)) as [[[v|]|e] it'];
      simpl in *; try discriminate.
    unfold return_calls. rewrite filter_app. simpl. now rewrite app_nil_r.
  - reflexivity.
  - unfold adapter_cancel in H. destruct (return_ I); discriminate H.
Qed.

Lemma stream_run_readable (ops : list (StreamOp T)) (s : AdapterStream I) :
  stream_state (stream_run s ops) = Readable ->
  stream_state s = Readable
  /\ return_calls (calls (stream_run s ops)) = return_calls (calls s).
Proof.
  revert s. unfold stream_run.
  induction ops as [|op ops IH]; intros s H; simpl in *; [auto|].
  destruct (IH _ H) as [Hs Hc].
  destruct (stream_step_readable s op Hs) as [Hs' Hc'].
  split; [exact Hs'|]. now rewrite Hc, Hc'.
Qed.

(** Cancelling a readable stream closes it and calls [return], when the
    iterator has one, with the reason. *)
Lemma cancel_readable (s : AdapterStream I) (reason : JsError) :
  stream_state s = Readable ->
  stream_state (stream_step s (Cancel reason)) = StreamClosed
  /\ calls (stream_step s (Cancel reason))
     = calls s ++ match return_ I with
                  | Some _ => [CallReturn reason]
                  | None => []
                  end.
Proof.
  intros Hs. unfold stream_step. rewrite Hs. unfold adapter_cancel.
  destruct (return_ I); simpl; [auto|]. now rewrite app_nil_r.
Qed.

End Adapter.

(** C8.  For every iterator wrapped by [readableFromAsyncIterable] that
    has a [return] method [f]: the [cancel] method of the stream calls
    [return] once with the reason it is given, and the iterator is left as
    [f], applied to that reason, leaves it; and after any pulls and reads
    that leave the stream readable (it is in flight: not closed by the end
    of the iterator, not errored, not cancelled before), cancelling the
    stream with a reason calls [return] with that reason, and, whatever is
    done with the stream afterwards, further cancels included, that call is
    the only call of [return] ever made: the iterator stays as [f], applied
    to the reason and to the iterator as the pulls had left it, has left
    it. *)
Theorem cancel_calls_return_once
  (T : Type) (I : AsyncIterator T)
  (f : JsError -> iterator_state I -> Completion unit * iterator_state I)
  (before : list (StreamOp T)) (reason : JsError) (after : list (StreamOp T)) :
  return_ I = Some f ->
  stream_state (stream_run (readableFromAsyncIterable I) before) = Readable ->
  (forall s : AdapterStream I,
      calls (adapter_cancel reason s) = calls s ++ [CallReturn reason]
      /\ it (adapter_cancel reason s) = snd (f reason (it s)))
  /\ return_calls
       (calls (stream_run (readableFromAsyncIterable I)
                 (before ++ Cancel reason :: after)))
     = [CallReturn reason]
  /\ it (stream_run (readableFromAsyncIterable I)
           (before ++ Cancel reason :: after))
     = snd (f reason (it (stream_run (readableFromAsyncIterable I) before))).
Proof.
  intros Hf Hs. split.
  { intros s. unfold adapter_cancel. now rewrite Hf. }
  destruct (stream_run_readable before (readableFromAsyncIterable I) Hs)
    as [_ Hc].
  destruct (cancel_readable (stream_run (readableFromAsyncIterable I) before)
              reason Hs) as [Hclosed Hcalls].
  assert (E : stream_run (readableFromAsyncIterable I)
                (before ++ Cancel reason :: after)
              = stream_step (stream_run (readableFromAsyncIterable I) before)
                  (Cancel reason)).
  { unfold stream_run at 1. rewrite fold_left_app. cbn [fold_left].
    apply stream_run_settled. rewrite Hclosed. discriminate. }
  rewrite E. split.
  - rewrite Hcalls, Hf. unfold return_calls in *. rewrite filter_app, Hc.
    reflexivity.
  - unfold stream_step. rewrite Hs. unfold adapter_cancel. rewrite Hf.
    reflexivity.
Qed.

Lemma cancel_calls_return_once_witness :
  let ops := [Pull; Read; Pull]
             ++ Cancel cancel_reason
             :: [Pull; Cancel (Error (js "again")); Read] in
  return_calls
    (calls (stream_run (readableFromAsyncIterable reason_keeping_iterator) ops))
  = [CallReturn cancel_reason]
  /\ it (stream_run (readableFromAsyncIterable reason_keeping_iterator) ops)
     = (2, [cancel_reason]).
Proof.
  apply (@cancel_calls_return_once N reason_keeping_iterator
           (fun reason st => (Normal tt, (fst st, snd st ++ [reason])))
           [Pull; Read; Pull] cancel_reason
           [Pull; Cancel (Error (js "again")); Read]);
    reflexivity.
Defined.

(** A stream that has closed because the iterator was done is not in
    flight any more: cancelling it calls nothing. *)
Lemma cancel_after_close_calls_nothing :
  return_calls
    (calls (stream_run (readableFromAsyncIterable counting_iterator)
              [Pull; Read; Pull; Read; Pull; Read; Pull; Cancel cancel_reason]))
  = [].
Proof. reflexivity. Qed.

(** Without a [return] method nothing is called on cancel. *)
Lemma cancel_without_return (T : Type) (I : AsyncIterator T)
  (s : AdapterStream I) (reason : JsError) :
  return_ I = None -> adapter_cancel reason s = s.
Proof. unfold adapter_cancel. now intros ->. Qed.

(* ================================================================= *)
(** * Further properties *)

(** ** [trimStartOfStreamHelper] on the whole stream *)

Lemma trimStart_app_blank (a b : jsstring) :
  trimStart a = [] -> trimStart (a ++ b) = trimStart b.
Proof.
  induction a as [|c a IH]; simpl; [reflexivity|].
  destruct (is_js_whitespace c); [exact IH | discriminate].
Qed.

Lemma trimStart_app_residue (a b : jsstring) :
  trimStart a <> [] -> trimStart (a ++ b) = trimStart a ++ b.
Proof.
  induction a as [|c a IH]; simpl; [congruence|].
  destruct (is_js_whitespace c); [exact IH | reflexivity].
Qed.

Lemma trimStart_idempotent (a : jsstring) : trimStart (trimStart a) = trimStart a.
Proof.
  induction a as [|c a IH]; simpl; [reflexivity|].
  destruct (is_js_whitespace c) eqn:E; [exact IH|]. simpl. now rewrite E.
Qed.

(** The texts returned by the calls of one closure, put end to end, are
    the texts it was given, put end to end, without the white space at the
    start: cutting a stream into pieces does not change what the helper
    removes from it. *)
Theorem trim_helper_trims_the_stream (texts : list jsstring) :
  List.concat (trimStartOfStreamHelper texts) = trimStart (List.concat texts).
Proof.
  unfold trimStartOfStreamHelper.
  induction texts as [|t texts IH]; [reflexivity|].
  cbn [trim_calls List.concat]. unfold trimStartOfStreamHelper_call.
  destruct (trimStart t) as [|c r] eqn:E.
  - cbn [truthy List.concat app]. rewrite IH.
    now rewrite trimStart_app_blank.
  - cbn [truthy List.concat]. rewrite trim_calls_false.
    rewrite trimStart_app_residue by congruence. now rewrite E.
Qed.

(** What one closure returns is left as it is by a second, fresh closure:
    trimming the start of the stream twice is trimming it once. *)
Theorem trim_helper_idempotent (texts : list jsstring) :
  trimStartOfStreamHelper (trimStartOfStreamHelper texts)
  = trimStartOfStreamHelper texts.
Proof.
  unfold trimStartOfStreamHelper.
  induction texts as [|t texts IH]; [reflexivity|].
  cbn [trim_calls]. destruct (trimStart t) as [|c r] eqn:E.
  - rewrite (trim_call_blank t E). cbn [trim_calls].
    rewrite (trim_call_blank []) by reflexivity. now rewrite IH.
  - assert (Ht : trimStart t <> []) by (rewrite E; discriminate).
    rewrite (trim_call_residue t Ht). rewrite trim_calls_false.
    cbn [trim_calls]. rewrite trim_call_residue
      by (now rewrite trimStart_idempotent).
    now rewrite trimStart_idempotent, trim_calls_false.
Qed.

(** ** [createCallbacksTransformer] whatever the callbacks do *)

Lemma token_calls_app (t1 t2 : list Action) :
  token_calls (t1 ++ t2) = token_calls t1 ++ token_calls t2.
Proof.
  induction t1 as [|a t1 IH]; simpl; [reflexivity|].
  destruct a; simpl; now rewrite IH.
Qed.

(** One call of [transform]: the bytes of the message are enqueued and
    [onToken] is called before anything can fail; the message is added to
    [aggregatedResponse] only when [onCompletion] was supplied and [onToken]
    did not fail. *)
Lemma transform_outcome (cb : AIStreamCallbacks) (m : jsstring)
  (s : CallbacksState) :
  let r := fst (callbacks_transform cb m s) in
  let s' := snd (callbacks_transform cb m s) in
  trace s'
  = trace s ++ Enqueue (TextEncoder_encode m)
               :: if_supplied (onToken cb) (CallOnToken m)
  /\ (r = Normal tt ->
      aggregatedResponse s'
      = match onCompletion cb with
        | Some _ => aggregatedResponse s ++ m
        | None => aggregatedResponse s
        end)
  /\ (onCompletion cb = None -> aggregatedResponse s' = aggregatedResponse s)
  /\ (forall f, onToken cb = Some f -> r = f m)
  /\ (onToken cb = None -> r = Normal tt).
Proof.
  unfold callbacks_transform, bind, act, modify, lift, ret, append_aggregated.
  simpl. destruct (onToken cb) as [f|]; simpl.
  - destruct (f m) as [[]|e] eqn:Ef; simpl.
    + destruct (onCompletion cb); simpl; rewrite <- app_assoc; simpl;
        repeat split; auto; congruence.
    + rewrite <- app_assoc. simpl. repeat split; auto; congruence.
  - destruct (onCompletion cb); simpl; repeat split; auto; congruence.
Qed.

(** The calls of [transform] for a sequence of messages: a prefix of them
    is gone through, all of them unless a call failed. *)
Lemma transforms_outcome (cb : AIStreamCallbacks) (ms : list jsstring)
  (s : CallbacksState) :
  let r := fst (for_each (callbacks_transform cb) ms s) in
  let s' := snd (for_each (callbacks_transform cb) ms s) in
  exists k,
    (k <= List.length ms)%nat
    /\ trace s'
       = trace s
         ++ flat_map (fun m => Enqueue (TextEncoder_encode m)
                               :: if_supplied (onToken cb) (CallOnToken m))
              (firstn k ms)
    /\ (r = Normal tt ->
        k = List.length ms
        /\ aggregatedResponse s'
           = match onCompletion cb with
             | Some _ => aggregatedResponse s ++ List.concat ms
             | None => aggregatedResponse s
             end)
    /\ (onCompletion cb = None -> aggregatedResponse s' = aggregatedResponse s).
Proof.
  revert s. induction ms as [|m ms IH]; intros s; cbn [for_each].
  - exists 0%nat. simpl. rewrite !app_nil_r.
    repeat split; auto. now destruct (onCompletion cb).
  - unfold bind.
    destruct (transform_outcome cb m s) as (Ht & Hagg & Hnone & _).
    destruct (callbacks_transform cb m s) as [[[]|e] s1] eqn:E1;
      cbn [fst snd] in *.
    + destruct (IH s1) as (k & Hk & Ht2 & Hn2 & Hnone2).
      exists (S k). split; [simpl; lia|]. split.
      * rewrite Ht2, Ht. cbn [firstn flat_map]. rewrite <- !app_assoc.
        reflexivity.
      * split.
        -- intros Hr. destruct (Hn2 Hr) as [-> Ha]. split; [reflexivity|].
           rewrite Ha, (Hagg eq_refl).
           destruct (onCompletion cb); [|reflexivity].
           simpl. now rewrite app_assoc.
        -- intros Hc. rewrite (Hnone2 Hc). now apply Hnone.
    + exists 1%nat. split; [simpl; lia|]. split.
      * rewrite Ht. cbn [firstn flat_map]. now rewrite app_nil_r.
      * split; [discriminate | exact Hnone].
Qed.

Lemma flat_map_enqueued (cb : AIStreamCallbacks) (ms : list jsstring) :
  enqueued_chunks
    (flat_map (fun m => Enqueue (TextEncoder_encode m)
                        :: if_supplied (onToken cb) (CallOnToken m)) ms)
  = map TextEncoder_encode ms.
Proof.
  induction ms as [|m ms IH]; simpl; [reflexivity|].
  rewrite enqueued_chunks_app, IH.
  now rewrite enqueued_chunks_if_supplied by discriminate.
Qed.

Lemma flat_map_completions (cb : AIStreamCallbacks) (ms : list jsstring) :
  completion_calls
    (flat_map (fun m => Enqueue (TextEncoder_encode m)
                        :: if_supplied (onToken cb) (CallOnToken m)) ms)
  = [].
Proof.
  induction ms as [|m ms IH]; simpl; [reflexivity|].
  rewrite completion_calls_app, IH. now destruct (onToken cb).
Qed.

Lemma flat_map_tokens (cb : AIStreamCallbacks) (ms : list jsstring) :
  token_calls
    (flat_map (fun m => Enqueue (TextEncoder_encode m)
                        :: if_supplied (onToken cb) (CallOnToken m)) ms)
  = match onToken cb with Some _ => ms | None => [] end.
Proof.
  induction ms as [|m ms IH]; simpl; [now destruct (onToken cb)|].
  rewrite token_calls_app, IH. now destruct (onToken cb).
Qed.

(** The whole life of the transformer, for any callbacks and any end of
    the source: the trace is made of the [onStart] call, the steps of a
    prefix of the messages, and at most one [onCompletion] call, made on the
    concatenation of all messages and only when the source closed after
    every message went through. *)
Lemma callbacks_life (callbacks : option AIStreamCallbacks)
  (messages : list jsstring) (upstream : UpstreamEnd) :
  let cb := callbacks_or_empty callbacks in
  let t := fst (run_callbacks callbacks messages upstream) in
  let e := snd (run_callbacks callbacks messages upstream) in
  exists k completions,
    (k <= List.length messages)%nat
    /\ t = if_supplied (onStart cb) CallOnStart
           ++ flat_map (fun m => Enqueue (TextEncoder_encode m)
                                 :: if_supplied (onToken cb) (CallOnToken m))
                (firstn k messages)
           ++ map CallOnCompletion completions
    /\ (completions = [] \/ completions = [List.concat messages])
    /\ (completions <> [] -> k = List.length messages /\ upstream = Closes)
    /\ (e = Closed ->
        k = List.length messages /\ upstream = Closes
        /\ (onCompletion cb <> None -> completions = [List.concat messages])).
Proof.
  intros cb t e. unfold t, e, run_callbacks.
  rewrite callbacks_stream_unfold. fold cb. unfold bind.
  assert (Hstart : trace (snd (callbacks_start cb callbacks_init))
                   = if_supplied (onStart cb) CallOnStart
                   /\ aggregatedResponse (snd (callbacks_start cb callbacks_init))
                      = []).
  { unfold callbacks_start. destruct (onStart cb) as [f|]; [|auto].
    unfold bind, act, modify, lift. simpl. destruct f; auto. }
  destruct Hstart as [Hst Hsa].
  destruct (callbacks_start cb callbacks_init) as [[[]|e0] s0];
    cbn [fst snd] in *.
  2:{ exists 0%nat, []. simpl. rewrite app_nil_r.
      repeat split; auto; try lia; try congruence; discriminate. }
  destruct (transforms_outcome cb messages s0) as (k & Hk & Ht & Hn & _).
  destruct (for_each (callbacks_transform cb) messages s0) as [[[]|e1] s1];
    cbn [fst snd] in *.
  2:{ exists k, []. simpl. rewrite app_nil_r, Ht, Hst.
      repeat split; auto; try congruence; discriminate. }
  destruct (Hn eq_refl) as [-> Hagg]. rewrite Hsa in Hagg. simpl in Hagg.
  destruct upstream as [|err].
  - unfold callbacks_flush. destruct (onCompletion cb) as [f|] eqn:Ec.
    + unfold bind, get_aggregated, act, modify, lift. simpl.
      exists (List.length messages), [List.concat messages].
      rewrite Ht, Hst, Hagg, <- app_assoc. simpl.
      destruct (f (List.concat messages)) as [[]|e2]; simpl;
        repeat split; auto; try congruence; try discriminate.
    + unfold ret. simpl. exists (List.length messages), [].
      rewrite Ht, Hst. simpl. rewrite app_nil_r.
      repeat split; auto; congruence.
  - unfold throw. simpl. exists (List.length messages), [].
    rewrite Ht, Hst. simpl. rewrite app_nil_r.
    repeat split; auto; try congruence; discriminate.
Qed.

Lemma completion_calls_map (cs : list jsstring) :
  completion_calls (map CallOnCompletion cs) = cs.
Proof. induction cs as [|c cs IH]; simpl; [reflexivity | now rewrite IH]. Qed.

Lemma completion_calls_if_supplied {A} (o : option A) (a : Action) :
  (forall c, a <> CallOnCompletion c) -> completion_calls (if_supplied o a) = [].
Proof.
  intros H. destruct o; simpl; [|reflexivity].
  destruct a; try reflexivity. now destruct (H completion).
Qed.

Lemma token_calls_if_supplied {A} (o : option A) (a : Action) :
  (forall c, a <> CallOnToken c) -> token_calls (if_supplied o a) = [].
Proof.
  intros H. destruct o; simpl; [|reflexivity].
  destruct a; try reflexivity. now destruct (H token).
Qed.

Lemma token_calls_completions (cs : list jsstring) :
  token_calls (map CallOnCompletion cs) = [].
Proof. induction cs as [|c cs IH]; simpl; [reflexivity | exact IH]. Qed.

Lemma enqueued_chunks_completions (cs : list jsstring) :
  enqueued_chunks (map CallOnCompletion cs) = [].
Proof. induction cs as [|c cs IH]; simpl; [reflexivity | exact IH]. Qed.

(** Whatever the callbacks do and however the source ends, [onCompletion]
    is called at most once and never on a partial text: when it is called
    its argument is the concatenation of all messages.  It is not called
    when the source is errored, and it is called when the stream closes and
    it was supplied. *)
Theorem onCompletion_only_with_everything
  (callbacks : option AIStreamCallbacks) (messages : list jsstring)
  (upstream : UpstreamEnd) :
  let t := fst (run_callbacks callbacks messages upstream) in
  let e := snd (run_callbacks callbacks messages upstream) in
  (completion_calls t = [] \/ completion_calls t = [List.concat messages])
  /\ (forall err, upstream = Errors err -> completion_calls t = [])
  /\ (forall f, e = Closed ->
                onCompletion (callbacks_or_empty callbacks) = Some f ->
                completion_calls t = [List.concat messages]).
Proof.
  intros t e.
  destruct (callbacks_life callbacks messages upstream)
    as (k & cs & _ & Ht & Hcs & Hne & Hclosed).
  fold t in Ht. fold e in Hclosed.
  assert (E : completion_calls t = cs).
  { rewrite Ht, !completion_calls_app, flat_map_completions,
      completion_calls_map.
    now rewrite completion_calls_if_supplied by discriminate. }
  rewrite E. split; [exact Hcs|]. split.
  - intros err Hup. destruct cs as [|c cs]; [reflexivity|].
    destruct Hne as [_ Hc]; [discriminate|]. congruence.
  - intros f He Hf. destruct (Hclosed He) as (_ & _ & H). apply H. congruence.
Qed.

(** Whatever the callbacks do and however the source ends, what is enqueued
    is, in order, the UTF-8 encoding of each message of a prefix of the
    messages, [onToken] (when supplied) has been called on exactly the
    messages of that prefix, and the prefix is all of them when the stream
    closes: no message is skipped, repeated or reordered. *)
Theorem output_is_a_prefix_of_the_messages
  (callbacks : option AIStreamCallbacks) (messages : list jsstring)
  (upstream : UpstreamEnd) :
  let t := fst (run_callbacks callbacks messages upstream) in
  let e := snd (run_callbacks callbacks messages upstream) in
  exists k,
    enqueued_chunks t = map TextEncoder_encode (firstn k messages)
    /\ token_calls t
       = match onToken (callbacks_or_empty callbacks) with
         | Some _ => firstn k messages
         | None => []
         end
    /\ (e = Closed -> firstn k messages = messages).
Proof.
  intros t e.
  destruct (callbacks_life callbacks messages upstream)
    as (k & cs & _ & Ht & _ & _ & Hclosed).
  fold t in Ht. fold e in Hclosed. exists k. split; [|split].
  - rewrite Ht, !enqueued_chunks_app, flat_map_enqueued,
      enqueued_chunks_completions, app_nil_r.
    now rewrite enqueued_chunks_if_supplied by discriminate.
  - rewrite Ht, !token_calls_app, flat_map_tokens, token_calls_completions,
      app_nil_r.
    now rewrite token_calls_if_supplied by discriminate.
  - intros He. destruct (Hclosed He) as (-> & _). apply firstn_all.
Qed.

(** The calls of [transform] on messages [onToken] accepts. *)
Lemma transforms_accepted (cb : AIStreamCallbacks)
  (f : jsstring -> Completion unit) (ms : list jsstring) (s : CallbacksState) :
  onToken cb = Some f ->
  Forall (fun t => f t = Normal tt) ms ->
  for_each (callbacks_transform cb) ms s
  = (Normal tt,
     {| aggregatedResponse :=
          match onCompletion cb with
          | Some _ => aggregatedResponse s ++ List.concat ms
          | None => aggregatedResponse s
          end;
        trace := trace s
                 ++ flat_map (fun m => [Enqueue (TextEncoder_encode m);
                                        CallOnToken m]) ms |}).
Proof.
  intros Hf Hall. revert s.
  induction Hall as [|m ms Hm _ IH]; intros s; cbn [for_each].
  - unfold ret. simpl. rewrite !app_nil_r.
    destruct s, (onCompletion cb); reflexivity.
  - assert (E1 : callbacks_transform cb m s
                 = (Normal tt,
                    {| aggregatedResponse :=
                         match onCompletion cb with
                         | Some _ => aggregatedResponse s ++ m
                         | None => aggregatedResponse s
                         end;
                       trace := trace s ++ [Enqueue (TextEncoder_encode m);
                                            CallOnToken m] |})).
    { unfold callbacks_transform, bind, act, modify, lift, ret,
        append_aggregated. rewrite Hf, Hm. simpl.
      destruct (onCompletion cb); simpl; rewrite <- !app_assoc; reflexivity. }
    unfold bind. rewrite E1, IH. cbn [aggregatedResponse trace]. f_equal.
    destruct (onCompletion cb); cbn [List.concat flat_map];
      rewrite <- !app_assoc; reflexivity.
Qed.

(** When [onToken] fails on a message, the bytes of that message have
    been enqueued already, the stream is errored with the reason of the
    failure, no later message is encoded or passed to [onToken], and
    [onCompletion] is not called, however the source ends. *)
Theorem failing_onToken_aborts
  (cb : AIStreamCallbacks) (f : jsstring -> Completion unit)
  (pre : list jsstring) (m : jsstring) (post : list jsstring)
  (upstream : UpstreamEnd) (e : JsError) :
  (forall g, onStart cb = Some g -> g = Normal tt) ->
  onToken cb = Some f ->
  Forall (fun t => f t = Normal tt) pre ->
  f m = Throw e ->
  run_callbacks (Some cb) (pre ++ m :: post) upstream
  = (if_supplied (onStart cb) CallOnStart
     ++ flat_map (fun t => [Enqueue (TextEncoder_encode t); CallOnToken t]) pre
     ++ [Enqueue (TextEncoder_encode m); CallOnToken m],
     Errored e).
Proof.
  intros Hstart Hf Hpre Hm. unfold run_callbacks.
  rewrite callbacks_stream_unfold. cbn [callbacks_or_empty]. unfold bind.
  assert (Hs : callbacks_start cb callbacks_init
               = (Normal tt,
                  {| aggregatedResponse := [];
                     trace := if_supplied (onStart cb) CallOnStart |})).
  { unfold callbacks_start. destruct (onStart cb) as [g|] eqn:Eg; [|reflexivity].
    unfold bind, act, modify, lift. simpl. now rewrite (Hstart g eq_refl). }
  rewrite Hs, for_each_app, (transforms_accepted cb _ Hf Hpre).
  cbn [for_each]. unfold bind.
  assert (E1 : forall s, callbacks_transform cb m s
                 = (Throw e,
                    {| aggregatedResponse := aggregatedResponse s;
                       trace := trace s ++ [Enqueue (TextEncoder_encode m);
                                            CallOnToken m] |})).
  { intros s. unfold callbacks_transform, bind, act, modify, lift.
    rewrite Hf, Hm. simpl. now rewrite <- !app_assoc. }
  rewrite E1. cbn [trace]. now rewrite <- !app_assoc.
Qed.

Lemma failing_onToken_aborts_witness :
  run_callbacks (Some fragile_callbacks)
    ([js "ok"] ++ js "bad" :: [js "never"]) Closes
  = ([CallOnStart; Enqueue (bytes "ok"); CallOnToken (js "ok");
      Enqueue (bytes "bad"); CallOnToken (js "bad")],
     Errored (Error (js "onToken failed"))).
Proof.
  apply (@failing_onToken_aborts fragile_callbacks
           (fun t => if jseqb t (js "bad")
                     then Throw (Error (js "onToken failed"))
                     else Normal tt)
           [js "ok"] (js "bad") [js "never"] Closes
           (Error (js "onToken failed"))).
  - intros g Hg. injection Hg as <-. reflexivity.
  - reflexivity.
  - repeat constructor.
  - reflexivity.
Defined.

(** When the source is errored after all its messages, with callbacks that
    do not fail, every message has been encoded and passed to [onToken],
    the stream is errored with the reason of the source, and [onCompletion]
    is not called. *)
Theorem source_error_skips_onCompletion
  (callbacks : option AIStreamCallbacks) (messages : list jsstring)
  (e : JsError) :
  callbacks_resolve (callbacks_or_empty callbacks) ->
  run_callbacks callbacks messages (Errors e)
  = (if_supplied (onStart (callbacks_or_empty callbacks)) CallOnStart
     ++ flat_map (fun m => Enqueue (TextEncoder_encode m)
                           :: if_supplied (onToken (callbacks_or_empty callbacks))
                                (CallOnToken m)) messages,
     Errored e).
Proof.
  intros Hres. unfold run_callbacks. rewrite callbacks_stream_unfold.
  unfold bind. rewrite (start_resolves Hres), (transforms_resolve Hres).
  reflexivity.
Qed.

Lemma source_error_skips_onCompletion_witness :
  run_callbacks (Some quiet_callbacks) [js "Hel"; js "lo"]
    (Errors (Error (js "connection reset")))
  = ([CallOnStart; Enqueue (bytes "Hel"); CallOnToken (js "Hel");
      Enqueue (bytes "lo"); CallOnToken (js "lo")],
     Errored (Error (js "connection reset"))).
Proof.
  apply (@source_error_skips_onCompletion (Some quiet_callbacks)
           [js "Hel"; js "lo"] (Error (js "connection reset"))).
  repeat split; simpl; intros; match goal with
  | H : Some _ = Some _ |- _ => injection H as <-; reflexivity
  end.
Defined.

(** Without [onCompletion] nothing is accumulated: [aggregatedResponse]
    is still empty at the end, whatever the messages, the other callbacks
    and the end of the source. *)
Theorem nothing_accumulated_without_onCompletion
  (callbacks : option AIStreamCallbacks) (messages : list jsstring)
  (upstream : UpstreamEnd) :
  onCompletion (callbacks_or_empty callbacks) = None ->
  aggregatedResponse
    (snd (transform_stream (createCallbacksTransformer callbacks)
            (fun _ => false) messages upstream callbacks_init))
  = [].
Proof.
  intros Hc. rewrite callbacks_stream_unfold. unfold bind.
  set (cb := callbacks_or_empty callbacks) in *.
  assert (Hs : aggregatedResponse (snd (callbacks_start cb callbacks_init)) = []).
  { unfold callbacks_start. destruct (onStart cb) as [f|]; [|reflexivity].
    unfold bind, act, modify, lift. simpl. now destruct f. }
  destruct (callbacks_start cb callbacks_init) as [[[]|e0] s0];
    cbn [snd] in *; [|exact Hs].
  destruct (transforms_outcome cb messages s0) as (k & _ & _ & _ & Hn).
  specialize (Hn Hc).
  destruct (for_each (callbacks_transform cb) messages s0) as [[[]|e1] s1];
    cbn [snd] in *; [|congruence].
  destruct upstream as [|err].
  - unfold callbacks_flush. rewrite Hc. unfold ret. simpl. congruence.
  - unfold throw. simpl. congruence.
Qed.

Lemma nothing_accumulated_without_onCompletion_witness :
  aggregatedResponse
    (snd (transform_stream
            (createCallbacksTransformer
               (Some {| onStart := None; onCompletion := None;
                        onToken := Some (fun _ => Normal tt) |}))
            (fun _ => false) [js "Hel"; js "lo"] Closes callbacks_init))
  = [].
Proof.
  apply (@nothing_accumulated_without_onCompletion
           (Some {| onStart := None; onCompletion := None;
                    onToken := Some (fun _ => Normal tt) |})
           [js "Hel"; js "lo"] Closes).
  reflexivity.
Defined.

(** ** [createEventStreamTransformer] with a termination event *)

Lemma before_termination_app (a b : list ParseEvent) :
  before_termination (a ++ b)
  = if existsb is_termination a then before_termination a
    else a ++ before_termination b.
Proof.
  induction a as [|ev a IH]; cbn [before_termination existsb app];
    [reflexivity|].
  destruct (is_termination ev); cbn [orb]; [reflexivity|].
  rewrite IH. now destruct (existsb is_termination a).
Qed.

Lemma before_termination_none (evs : list ParseEvent) :
  existsb is_termination evs = false -> before_termination evs = evs.
Proof.
  induction evs as [|ev evs IH]; cbn [before_termination existsb];
    [reflexivity|].
  destruct (is_termination ev); cbn [orb]; [discriminate|].
  intros H. now rewrite IH.
Qed.

Lemma no_termination_forall (evs : list ParseEvent) :
  existsb is_termination evs = false <->
  Forall (fun ev => is_termination ev = false) evs.
Proof.
  induction evs as [|ev evs IH]; cbn [existsb]; split; intros H;
    try constructor; try reflexivity.
  - now apply orb_false_iff in H.
  - apply IH. now apply orb_false_iff in H.
  - inversion H; subst. apply orb_false_iff. split; [assumption | now apply IH].
Qed.

Section Termination.

Variable customParser : option AIStreamParser.

(** The events of one feed, handled from an open controller: the tokens of
    the events before the first termination event are enqueued, nothing
    else, and the controller is terminated when there is such an event. *)
Lemma for_each_until_termination (evs : list ParseEvent) (c : FramerController) :
  terminated c = false ->
  hook_returns customParser (before_termination evs) ->
  enqueued (snd (for_each (onParse customParser) evs c))
  = enqueued c ++ expected_tokens customParser (before_termination evs)
  /\ terminated (snd (for_each (onParse customParser) evs c))
     = existsb is_termination evs
  /\ (existsb is_termination evs = false ->
      fst (for_each (onParse customParser) evs c) = Normal tt).
Proof.
  revert c. induction evs as [|ev evs IH]; intros c Hopen Hhook.
  - simpl. rewrite app_nil_r. auto.
  - cbn [for_each before_termination existsb] in *. unfold bind.
    destruct (is_termination ev) eqn:Hterm.
    + rewrite (onParse_termination customParser ev c Hterm).
      destruct (for_each_after_terminate customParser evs
                  {| enqueued := enqueued c; terminated := true;
                     handled := handled c ++ [ev];
                     hook_calls := hook_calls c |} eq_refl) as [He Ht].
      simpl. rewrite app_nil_r.
      destruct (for_each (onParse customParser) evs _) as [[[]|e] c2];
        simpl in *; repeat split; auto; discriminate.
    + apply hook_returns_cons in Hhook as [Hhd Htl].
      destruct (onParse_token c Hterm Hopen Hhd) as (c1 & E1 & Q1 & T1).
      rewrite E1. destruct (IH c1 T1 Htl) as (Q2 & T2 & N2).
      simpl. rewrite Q2, Q1, <- app_assoc. auto.
Qed.

Variable P : EventSourceParser.

Lemma dispatched_app (a b : list (list byte)) (p : parser_state P) :
  dispatched P p (a ++ b)
  = dispatched P p a ++ dispatched P (parser_after P p a) b.
Proof.
  revert p. induction a as [|chunk a IH]; intros p; simpl; [reflexivity|].
  destruct (feed P p (TextDecoder_decode chunk)) as [p' evs]. simpl.
  now rewrite IH, app_assoc.
Qed.

(** The chunks of a body written to an open framer: what is enqueued is
    the tokens of the events dispatched before the first termination event;
    the chunks after the one that holds it are not fed. *)
Lemma write_until_termination (chunks : list (list byte)) (f : Framer P) :
  terminated (controller f) = false ->
  hook_returns customParser
    (before_termination (dispatched P (eventSourceParser f) chunks)) ->
  enqueued (controller (snd (framer_write customParser chunks f)))
  = enqueued (controller f)
    ++ expected_tokens customParser
         (before_termination (dispatched P (eventSourceParser f) chunks))
  /\ terminated (controller (snd (framer_write customParser chunks f)))
     = existsb is_termination (dispatched P (eventSourceParser f) chunks)
  /\ (existsb is_termination (dispatched P (eventSourceParser f) chunks) = false ->
      fst (framer_write customParser chunks f) = Normal tt).
Proof.
  revert f. induction chunks as [|chunk chunks IH]; intros f Hopen Hhook.
  - simpl. rewrite app_nil_r. auto.
  - unfold framer_write in *. cbn [write_chunks dispatched] in *.
    replace (framer_terminated f) with false by (symmetry; exact Hopen).
    unfold bind. cbn [createEventStreamTransformer transform].
    unfold framer_transform.
    destruct (feed P (eventSourceParser f) (TextDecoder_decode chunk))
      as [p' evs].
    rewrite before_termination_app in Hhook |- *. rewrite existsb_app.
    destruct (existsb is_termination evs) eqn:Hex.
    + destruct (for_each_until_termination evs (controller f) Hopen Hhook)
        as (Q & T & _).
      rewrite Hex in T.
      destruct (for_each (onParse customParser) evs (controller f))
        as [[[]|e] c1]; cbn [fst snd orb] in *.
      * pose proof (write_terminated customParser
                      {| eventSourceParser := p'; controller := c1 |}
                      chunks T) as Hw.
        unfold framer_write in Hw. rewrite Hw. cbn.
        repeat split; auto; discriminate.
      * cbn. repeat split; auto; discriminate.
    + apply hook_returns_app in Hhook as [Hh1 Hh2].
      assert (Hh1' : hook_returns customParser (before_termination evs))
        by now rewrite before_termination_none.
      destruct (for_each_until_termination evs (controller f) Hopen Hh1')
        as (Q & T & N).
      rewrite Hex in T. specialize (N Hex).
      rewrite before_termination_none in Q by exact Hex.
      destruct (for_each (onParse customParser) evs (controller f))
        as [r c1]; cbn [fst snd orb] in *. subst r.
      destruct (IH {| eventSourceParser := p'; controller := c1 |} T Hh2)
        as (Q2 & T2 & N2).
      cbn [eventSourceParser controller] in *.
      rewrite Q2, T2, Q. unfold expected_tokens. rewrite flat_map_app.
      rewrite <- app_assoc. auto.
Qed.

(** The end of the source does not change the state of the framer. *)
Lemma framer_run_state (b : Body) :
  snd (framer_run P customParser b)
  = snd (framer_write customParser (chunks b) (framer_init P))
  /\ (fst (framer_write customParser (chunks b) (framer_init P)) = Normal tt ->
      terminated (controller
                    (snd (framer_write customParser (chunks b) (framer_init P))))
      = true \/ body_end b = Closes ->
      fst (framer_run P customParser b) = Normal tt)
  /\ (forall e,
         fst (framer_write customParser (chunks b) (framer_init P)) = Throw e ->
         fst (framer_run P customParser b) = Throw e).
Proof.
  unfold framer_run, transform_stream, bind, framer_write.
  cbn [createEventStreamTransformer start flush framer_start modify].
  change {| eventSourceParser := createParser P;
            controller := controller (framer_init P) |}
    with (framer_init P).
  destruct (write_chunks _ _ (chunks b) (framer_init P)) as [[[]|e] f1];
    cbn [fst snd].
  - unfold framer_terminated.
    destruct (terminated (controller f1)) eqn:Ht; cbn [fst snd].
    + repeat split; auto; discriminate.
    + destruct (body_end b); cbn; repeat split; auto; try discriminate.
      intros _ [H|H]; discriminate H.
  - repeat split; auto; discriminate.
Qed.

End Termination.

(** Whatever the parser and the body, as long as the hook returns on the
    events before the first termination event: what the framer enqueues is,
    in order, the tokens of the events dispatched before the first
    termination event and nothing else (all the events when there is none),
    however the body ends and whatever follows the termination event; and
    its controller is terminated exactly when there is a termination
    event. *)
Theorem tokens_stop_at_termination
  (P : EventSourceParser) (customParser : option AIStreamParser) (b : Body) :
  hook_returns customParser
    (before_termination (dispatched P (createParser P) (chunks b))) ->
  enqueued (controller (snd (framer_run P customParser b)))
  = expected_tokens customParser
      (before_termination (dispatched P (createParser P) (chunks b)))
  /\ terminated (controller (snd (framer_run P customParser b)))
     = existsb is_termination (dispatched P (createParser P) (chunks b)).
Proof.
  intros Hhook.
  destruct (framer_run_state customParser P b) as (-> & _ & _).
  destruct (@write_until_termination customParser P (chunks b) (framer_init P)
              eq_refl Hhook) as (Q & T & _).
  split; [exact Q | exact T].
Qed.

Lemma tokens_stop_at_termination_witness :
  let b := {| chunks := [bytes (lines ["data: a"; ""; "data: b"]);
                         bytes (lines [""; "event: done"; "data: {}"; "";
                                       "data: boom"; ""]);
                         bytes (lines ["data: c"; ""])];
              body_end := Errors (Error (js "reset")) |} in
  enqueued (controller (snd (framer_run sse_parser (Some fragile_hook) b)))
  = [js "a"; js "b"]
  /\ terminated (controller (snd (framer_run sse_parser (Some fragile_hook) b)))
     = true.
Proof.
  apply (@tokens_stop_at_termination sse_parser (Some fragile_hook)
           {| chunks := [bytes (lines ["data: a"; ""; "data: b"]);
                         bytes (lines [""; "event: done"; "data: {}"; "";
                                       "data: boom"; ""]);
                         bytes (lines ["data: c"; ""])];
              body_end := Errors (Error (js "reset")) |}).
  intros f e Hf Hin. injection Hf as <-. vm_compute in Hin.
  destruct Hin as [H|[H|[]]]; injection H as <-; eexists; reflexivity.
Defined.

Lemma split_at_last (A : Type) (e1 d evs : list A) (ev : A) :
  e1 ++ d = evs ++ [ev] ->
  (d = [] /\ e1 = evs ++ [ev])
  \/ (exists d', d = d' ++ [ev] /\ evs = e1 ++ d').
Proof.
  destruct d as [|x d] using rev_ind.
  - rewrite app_nil_r. auto.
  - clear IHd. rewrite app_assoc. intros H. apply app_inj_tail in H as [H ->].
    right. exists d. auto.
Qed.

Lemma before_termination_prefix (evs : list ParseEvent) (ev : ParseEvent)
  (rest : list ParseEvent) :
  Forall (fun x => is_termination x = false) evs ->
  is_termination ev = true ->
  before_termination (evs ++ ev :: rest) = evs.
Proof.
  intros Hevs Hev. rewrite before_termination_app.
  apply no_termination_forall in Hevs. rewrite Hevs.
  cbn [before_termination]. rewrite Hev. apply app_nil_r.
Qed.

Lemma completion_calls_lifecycle (cb : AIStreamCallbacks) (ms : list jsstring) :
  completion_calls (lifecycle_order cb ms)
  = match onCompletion cb with
    | Some _ => [List.concat ms]
    | None => []
    end.
Proof.
  unfold lifecycle_order.
  rewrite !completion_calls_app, flat_map_completions.
  rewrite completion_calls_if_supplied by discriminate.
  now destruct (onCompletion cb).
Qed.

Section TerminationLast.

Variable customParser : option AIStreamParser.
Variable P : EventSourceParser.

(** When the termination event is the last event dispatched from the
    chunks [upto], [transform] does not throw, and the chunks written
    after them are ignored. *)
Lemma write_ends_at_termination (upto after : list (list byte))
  (evs : list ParseEvent) (ev : ParseEvent) (f : Framer P) :
  terminated (controller f) = false ->
  dispatched P (eventSourceParser f) upto = evs ++ [ev] ->
  Forall (fun x => is_termination x = false) evs ->
  is_termination ev = true ->
  hook_returns customParser evs ->
  fst (framer_write customParser (upto ++ after) f) = Normal tt.
Proof.
  revert evs f. induction upto as [|c upto IH]; intros evs f Hopen HD Hevs Hev Hhook.
  - simpl in HD. now destruct evs.
  - cbn [dispatched] in HD.
    unfold framer_write in *. cbn [app write_chunks].
    replace (framer_terminated f) with false by (symmetry; exact Hopen).
    unfold bind. cbn [createEventStreamTransformer transform].
    destruct (feed P (eventSourceParser f) (TextDecoder_decode c))
      as [p' e1] eqn:Efeed.
    destruct (@split_at_last _ _ _ _ _ HD) as [[Hd He1]|(d' & Hd & He)].
    + unfold framer_transform. rewrite Efeed, He1, for_each_app.
      destruct (for_each_tokens (controller f) Hevs Hopen Hhook)
        as (c1 & E1 & _ & _).
      rewrite E1. cbn [for_each]. unfold bind.
      rewrite (onParse_termination customParser ev c1 Hev). cbn [ret].
      pose proof (write_terminated customParser
                    {| eventSourceParser := p';
                       controller :=
                         {| enqueued := enqueued c1; terminated := true;
                            handled := handled c1 ++ [ev];
                            hook_calls := hook_calls c1 |} |}
                    (upto ++ after) eq_refl) as Hw.
      unfold framer_write in Hw. now rewrite Hw.
    + subst evs. apply Forall_app in Hevs as [Hevs1 Hevs2].
      apply hook_returns_app in Hhook as [Hh1 Hh2].
      destruct (@transform_tokens customParser P c f Hopen) as (f1 & E1 & P1 & T1 & _).
      * now rewrite Efeed.
      * now rewrite Efeed.
      * rewrite E1. rewrite Efeed in P1. cbn [fst] in P1.
        apply (IH d' f1 T1); auto. now rewrite P1.
Qed.

End TerminationLast.

(** For a response that is ok, when the termination event is the last
    event dispatched from the chunks up to and including the one that holds
    it, and neither the hook nor a callback fails: the tokens are those of
    the events before it, each is encoded into one output chunk, the stream
    closes and [onCompletion] is called once with their concatenation,
    whatever the body holds afterwards and even when the body is errored
    later. *)
Theorem pipeline_closes_at_termination
  (P : EventSourceParser) (response : Response)
  (customParser : option AIStreamParser)
  (callbacks : option AIStreamCallbacks) (taken : nat)
  (upto after : list (list byte)) (evs : list ParseEvent) (ev : ParseEvent) :
  ok response = true ->
  chunks (body_or_empty response) = upto ++ after ->
  dispatched P (createParser P) upto = evs ++ [ev] ->
  Forall (fun x => is_termination x = false) evs ->
  is_termination ev = true ->
  hook_returns customParser evs ->
  callbacks_resolve (callbacks_or_empty callbacks) ->
  let r := AIStream P response customParser callbacks taken in
  tokens r = expected_tokens customParser evs
  /\ output r = map TextEncoder_encode (tokens r)
  /\ ending r = Closed
  /\ completion_calls (callback_trace r)
     = match onCompletion (callbacks_or_empty callbacks) with
       | Some _ => [List.concat (tokens r)]
       | None => []
       end.
Proof.
  intros Hok Hchunks HD Hevs Hev Hhook Hres r.
  assert (HB : before_termination
                 (dispatched P (createParser P) (chunks (body_or_empty response)))
               = evs).
  { rewrite Hchunks. rewrite (dispatched_app P upto after), HD, <- app_assoc.
    now apply before_termination_prefix. }
  destruct (framer_run_state customParser P (body_or_empty response))
    as (Hstate & Hnormal & _).
  destruct (@write_until_termination customParser P
              (chunks (body_or_empty response)) (framer_init P) eq_refl)
    as (Q & T & _).
  { cbn [framer_init eventSourceParser]. now rewrite HB. }
  cbn [framer_init eventSourceParser controller enqueued controller_init app]
    in Q, T.
  rewrite HB in Q.
  assert (Hfst : fst (framer_run P customParser (body_or_empty response))
                 = Normal tt).
  { apply Hnormal.
    - rewrite Hchunks.
      apply (@write_ends_at_termination customParser P upto after evs ev
               (framer_init P) eq_refl HD Hevs Hev Hhook).
    - left. rewrite T, Hchunks, (dispatched_app P upto after), HD.
      rewrite !existsb_app. cbn [existsb]. rewrite Hev.
      now rewrite orb_true_r. }
  unfold r, AIStream. rewrite Hok. cbn [negb]. fold (body_or_empty response).
  unfold framer_readable. rewrite Hfst, Hstate, Q.
  rewrite (run_callbacks_resolves callbacks _ Hres). cbn.
  rewrite enqueued_chunks_lifecycle, completion_calls_lifecycle. auto.
Qed.

Lemma pipeline_closes_at_termination_witness :
  let r := AIStream sse_parser
             {| ok := true; status := 200;
                body := Some {| chunks := [bytes (lines ["data: Hel"; ""; "data: lo"]);
                                           bytes (lines [""; "data: [DONE]"; ""]);
                                           bytes (lines ["data: late"; ""])];
                                body_end := Errors (Error (js "reset")) |} |}
             None (Some quiet_callbacks) 0 in
  tokens r = [js "Hel"; js "lo"]
  /\ output r = map TextEncoder_encode (tokens r)
  /\ ending r = Closed
  /\ completion_calls (callback_trace r) = [List.concat (tokens r)].
Proof.
  apply (@pipeline_closes_at_termination sse_parser
           {| ok := true; status := 200;
              body := Some {| chunks := [bytes (lines ["data: Hel"; ""; "data: lo"]);
                                         bytes (lines [""; "data: [DONE]"; ""]);
                                         bytes (lines ["data: late"; ""])];
                              body_end := Errors (Error (js "reset")) |} |}
           None (Some quiet_callbacks) 0%nat
           [bytes (lines ["data: Hel"; ""; "data: lo"]);
            bytes (lines [""; "data: [DONE]"; ""])]
           [bytes (lines ["data: late"; ""])]
           [plain_event "Hel"; plain_event "lo"] (plain_event "[DONE]")).
  - reflexivity.
  - reflexivity.
  - vm_compute. reflexivity.
  - repeat constructor.
  - reflexivity.
  - intros f e Hf. discriminate Hf.
  - repeat split; simpl; intros; match goal with
    | H : Some _ = Some _ |- _ => injection H as <-; reflexivity
    end.
Defined.

(** ** A hook that throws *)

Lemma write_chunks_stopped {I S} (t : Transformer I S) (stopped : S -> bool)
  (inputs : list I) (s : S) :
  stopped s = true -> write_chunks t stopped inputs s = (Normal tt, s).
Proof.
  intros H. destruct inputs; cbn [write_chunks]; [reflexivity | now rewrite H].
Qed.

(** Chunks written one after the other. *)
Lemma write_chunks_app {I S} (t : Transformer I S) (stopped : S -> bool)
  (a b : list I) (s : S) :
  write_chunks t stopped (a ++ b) s
  = match write_chunks t stopped a s with
    | (Normal _, s') => write_chunks t stopped b s'
    | (Throw e, s') => (Throw e, s')
    end.
Proof.
  revert s. induction a as [|x a IH]; intros s; cbn [app write_chunks].
  - reflexivity.
  - destruct (stopped s) eqn:Hs.
    + now rewrite write_chunks_stopped.
    + unfold bind. destruct (transform t x s) as [[[]|e] s1];
        [apply IH | reflexivity].
Qed.

Section ThrowingHook.

Variable hook : AIStreamParser.
Variable P : EventSourceParser.

(** The hook throwing on an event that is not a termination event: the
    callback throws the same and nothing is enqueued. *)
Lemma onParse_hook_throws (e : ParsedEvent) (c : FramerController)
  (err : JsError) :
  is_termination (Event e) = false ->
  hook (data e) = Throw err ->
  fst (onParse (Some hook) (Event e) c) = Throw err
  /\ enqueued (snd (onParse (Some hook) (Event e) c)) = enqueued c
  /\ terminated (snd (onParse (Some hook) (Event e) c)) = terminated c.
Proof.
  intros Hterm Hthrow. unfold onParse, bind, note_handled, modify.
  rewrite Hterm. unfold call_customParser. simpl. rewrite Hthrow. auto.
Qed.

(** The parser of a framer after chunks without termination event. *)
Lemma write_tokens_parser (chunks : list (list byte)) (f : Framer P) :
  terminated (controller f) = false ->
  Forall (fun ev => is_termination ev = false)
    (dispatched P (eventSourceParser f) chunks) ->
  hook_returns (Some hook) (dispatched P (eventSourceParser f) chunks) ->
  eventSourceParser (snd (framer_write (Some hook) chunks f))
  = parser_after P (eventSourceParser f) chunks.
Proof.
  revert f. induction chunks as [|chunk chunks IH]; intros f Hopen Hterm Hhook.
  - reflexivity.
  - cbn [dispatched parser_after] in *.
    destruct (@transform_tokens (Some hook) P chunk f Hopen)
      as (f1 & E1 & P1 & T1 & _).
    + destruct (feed P (eventSourceParser f) (TextDecoder_decode chunk)).
      now apply Forall_app in Hterm as [H _].
    + destruct (feed P (eventSourceParser f) (TextDecoder_decode chunk)).
      now apply hook_returns_app in Hhook as [H _].
    + unfold framer_write in *. cbn [write_chunks].
      replace (framer_terminated f) with false by (symmetry; exact Hopen).
      unfold bind. cbn [createEventStreamTransformer transform].
      rewrite E1, <- P1.
      destruct (feed P (eventSourceParser f) (TextDecoder_decode chunk))
        as [p' evs]. cbn [fst snd] in *.
      apply Forall_app in Hterm as [_ Hterm2].
      apply hook_returns_app in Hhook as [_ Hhook2].
      rewrite <- P1 in Hterm2, Hhook2. now apply IH.
Qed.

(** The framer on chunks the hook accepts, followed by a chunk with an
    event it throws on. *)
Lemma write_hook_throws (before : list (list byte)) (c : list byte)
  (after : list (list byte)) (pre : list ParseEvent) (e : ParsedEvent)
  (rest : list ParseEvent) (err : JsError) (f : Framer P) :
  terminated (controller f) = false ->
  Forall (fun ev => is_termination ev = false)
    (dispatched P (eventSourceParser f) before ++ pre) ->
  hook_returns (Some hook) (dispatched P (eventSourceParser f) before ++ pre) ->
  snd (feed P (parser_after P (eventSourceParser f) before) (TextDecoder_decode c))
  = pre ++ Event e :: rest ->
  is_termination (Event e) = false ->
  hook (data e) = Throw err ->
  fst (framer_write (Some hook) (before ++ c :: after) f) = Throw err
  /\ enqueued (controller (snd (framer_write (Some hook) (before ++ c :: after) f)))
     = enqueued (controller f)
       ++ expected_tokens (Some hook)
            (dispatched P (eventSourceParser f) before ++ pre)
  /\ terminated (controller
                   (snd (framer_write (Some hook) (before ++ c :: after) f)))
     = false.
Proof.
  intros Hopen Hterm Hhook Hfeed He Hthrow.
  apply Forall_app in Hterm as [Hterm1 Hterm2].
  apply hook_returns_app in Hhook as [Hhook1 Hhook2].
  destruct (@write_tokens (Some hook) P before f Hopen Hterm1 Hhook1)
    as (f1 & E1 & T1 & Q1).
  pose proof (write_tokens_parser before f Hopen Hterm1 Hhook1) as P1.
  rewrite E1 in P1. cbn [snd] in P1.
  assert (Happ : framer_write (Some hook) (before ++ c :: after) f
                 = framer_write (Some hook) (c :: after) f1).
  { unfold framer_write in *. now rewrite write_chunks_app, E1. }
  rewrite Happ. unfold framer_write. cbn [write_chunks].
  replace (framer_terminated f1) with false by (symmetry; exact T1).
  unfold bind. cbn [createEventStreamTransformer transform].
  unfold framer_transform. rewrite P1.
  destruct (feed P (parser_after P (eventSourceParser f) before)
              (TextDecoder_decode c)) as [p' evs].
  cbn [snd] in Hfeed. subst evs. rewrite for_each_app.
  destruct (for_each_tokens (controller f1) Hterm2 T1 Hhook2)
    as (c1 & E2 & Q2 & T2).
  rewrite E2. cbn [for_each]. unfold bind.
  destruct (@onParse_hook_throws e c1 err He Hthrow) as (Hr & Hq & Ht).
  destruct (onParse (Some hook) (Event e) c1) as [r c2]. cbn [fst snd] in *.
  subst r. cbn [fst snd controller].
  rewrite Hq, Ht, Q2, Q1. unfold expected_tokens.
  rewrite flat_map_app, <- app_assoc. auto.
Qed.

End ThrowingHook.

(** The callbacks transformer on a source that is errored, with callbacks
    that do not fail. *)
Lemma run_callbacks_source_errors (callbacks : option AIStreamCallbacks)
  (messages : list jsstring) (e : JsError) :
  callbacks_resolve (callbacks_or_empty callbacks) ->
  snd (run_callbacks callbacks messages (Errors e)) = Errored e
  /\ enqueued_chunks (fst (run_callbacks callbacks messages (Errors e)))
     = map TextEncoder_encode messages
  /\ completion_calls (fst (run_callbacks callbacks messages (Errors e))) = [].
Proof.
  intros Hres. unfold run_callbacks. rewrite callbacks_stream_unfold.
  unfold bind. rewrite (start_resolves Hres), (transforms_resolve Hres).
  unfold throw. cbn [fst snd trace callbacks_init app].
  split; [reflexivity|]. split.
  - rewrite enqueued_chunks_app, flat_map_enqueued.
    now rewrite enqueued_chunks_if_supplied by discriminate.
  - rewrite completion_calls_app, flat_map_completions.
    now rewrite completion_calls_if_supplied by discriminate.
Qed.

(** For a response that is ok, when the hook throws on the data of an
    event (after events it returned on, and before any termination event):
    the framer is errored with what the hook threw, it has enqueued the
    tokens of the events before, the callbacks transformer is given those
    of them it had taken by then and encodes them, the returned stream is
    errored with what the hook threw, and [onCompletion] is not called.
    Nothing that follows the event, in its chunk or in later ones, is
    handled. *)
Theorem throwing_hook_errors_the_stream
  (P : EventSourceParser) (response : Response) (hook : AIStreamParser)
  (callbacks : option AIStreamCallbacks) (taken : nat)
  (before : list (list byte)) (c : list byte) (after : list (list byte))
  (pre : list ParseEvent) (e : ParsedEvent) (rest : list ParseEvent)
  (err : JsError) :
  ok response = true ->
  chunks (body_or_empty response) = before ++ c :: after ->
  Forall (fun ev => is_termination ev = false)
    (dispatched P (createParser P) before ++ pre) ->
  hook_returns (Some hook) (dispatched P (createParser P) before ++ pre) ->
  snd (feed P (parser_after P (createParser P) before) (TextDecoder_decode c))
  = pre ++ Event e :: rest ->
  is_termination (Event e) = false ->
  hook (data e) = Throw err ->
  callbacks_resolve (callbacks_or_empty callbacks) ->
  let r := AIStream P response (Some hook) callbacks taken in
  enqueued (framing r)
  = expected_tokens (Some hook) (dispatched P (createParser P) before ++ pre)
  /\ tokens r = firstn taken (enqueued (framing r))
  /\ output r = map TextEncoder_encode (tokens r)
  /\ ending r = Errored err
  /\ completion_calls (callback_trace r) = [].
Proof.
  intros Hok Hchunks Hterm Hhook Hfeed He Hthrow Hres r.
  destruct (@write_hook_throws hook P before c after pre e rest err
              (framer_init P) eq_refl Hterm Hhook Hfeed He Hthrow)
    as (Hfst & Hq & Ht).
  destruct (framer_run_state (Some hook) P (body_or_empty response))
    as (Hstate & _ & Hthrows).
  rewrite Hchunks in Hstate, Hthrows. specialize (Hthrows err Hfst).
  cbn [framer_init controller enqueued controller_init app] in Hq.
  unfold r, AIStream. rewrite Hok. cbn [negb]. fold (body_or_empty response).
  unfold framer_readable. rewrite Hthrows, Hstate, Ht. cbn [andb].
  destruct (run_callbacks_source_errors callbacks
              (firstn taken
                 (enqueued (controller
                              (snd (framer_write (Some hook)
                                      (before ++ c :: after) (framer_init P))))))
              err Hres) as (Hend & Hout & Hcomp).
  destruct (run_callbacks callbacks _ (Errors err)) as [t en].
  cbn [fst snd] in *. cbn. rewrite Hq in *. auto.
Qed.

Lemma throwing_hook_errors_the_stream_witness :
  let r := AIStream sse_parser
             (ok_response [bytes (lines ["data: a"; ""]);
                           bytes (lines ["data: b"; ""; "data: boom"; "";
                                         "data: c"; ""]);
                           bytes (lines ["data: d"; ""])])
             (Some fragile_hook) (Some quiet_callbacks) 1 in
  enqueued (framing r) = [js "a"; js "b"]
  /\ tokens r = firstn 1 (enqueued (framing r))
  /\ output r = map TextEncoder_encode (tokens r)
  /\ ending r = Errored (Error (js "bad payload"))
  /\ completion_calls (callback_trace r) = [].
Proof.
  apply (@throwing_hook_errors_the_stream sse_parser
           (ok_response [bytes (lines ["data: a"; ""]);
                         bytes (lines ["data: b"; ""; "data: boom"; "";
                                       "data: c"; ""]);
                         bytes (lines ["data: d"; ""])])
           fragile_hook (Some quiet_callbacks) 1%nat
           [bytes (lines ["data: a"; ""])]
           (bytes (lines ["data: b"; ""; "data: boom"; ""; "data: c"; ""]))
           [bytes (lines ["data: d"; ""])]
           [plain_event "b"]
           {| evt_id := None; event := None; data := js "boom" |}
           [plain_event "c"] (Error (js "bad payload"))).
  - reflexivity.
  - reflexivity.
  - vm_compute. repeat constructor.
  - intros f e Hf Hin. injection Hf as <-. vm_compute in Hin.
    destruct Hin as [H|[H|[]]]; injection H as <-; eexists; reflexivity.
  - vm_compute. reflexivity.
  - reflexivity.
  - reflexivity.
  - repeat split; simpl; intros; match goal with
    | H : Some _ = Some _ |- _ => injection H as <-; reflexivity
    end.
Defined.

(** ** The calls of the hook *)

Section HookCalls.

Variable hook : AIStreamParser.

Lemma onParse_logs (ev : ParseEvent) (c : FramerController) :
  is_termination ev = false ->
  hook_calls (snd (onParse (Some hook) ev c))
  = hook_calls c ++ parsed_events [ev]
  /\ handled (snd (onParse (Some hook) ev c)) = handled c ++ [ev].
Proof.
  intros Hterm. unfold onParse, bind, note_handled, modify. rewrite Hterm.
  destruct ev as [e|v]; simpl; [|now rewrite app_nil_r].
  unfold call_customParser. simpl.
  destruct (hook (data e)) as [[m|]|err]; simpl; auto.
  destruct (truthy m); simpl; auto.
  unfold controller_enqueue. simpl. destruct (terminated c); auto.
Qed.

Lemma for_each_logs (evs : list ParseEvent) (c c' : FramerController) :
  Forall (fun ev => is_termination ev = false) evs ->
  for_each (onParse (Some hook)) evs c = (Normal tt, c') ->
  hook_calls c' = hook_calls c ++ parsed_events evs
  /\ handled c' = handled c ++ evs.
Proof.
  intros Hterm. revert c. induction Hterm as [|ev evs Hev _ IH]; intros c E.
  - simpl in E. injection E as <-. simpl. now rewrite !app_nil_r.
  - cbn [for_each] in E. unfold bind in E.
    destruct (@onParse_logs ev c Hev) as [Hh Hd].
    destruct (onParse (Some hook) ev c) as [[[]|err] c1]; [|discriminate E].
    cbn [snd] in *. destruct (IH c1 E) as [Hh2 Hd2].
    rewrite Hh2, Hd2, Hh, Hd, <- !app_assoc. split; [|reflexivity].
    destruct ev; reflexivity.
Qed.

Variable P : EventSourceParser.

Lemma write_logs (chunks : list (list byte)) (f : Framer P) :
  terminated (controller f) = false ->
  Forall (fun ev => is_termination ev = false)
    (dispatched P (eventSourceParser f) chunks) ->
  hook_returns (Some hook) (dispatched P (eventSourceParser f) chunks) ->
  hook_calls (controller (snd (framer_write (Some hook) chunks f)))
  = hook_calls (controller f)
    ++ parsed_events (dispatched P (eventSourceParser f) chunks)
  /\ handled (controller (snd (framer_write (Some hook) chunks f)))
     = handled (controller f) ++ dispatched P (eventSourceParser f) chunks.
Proof.
  revert f. induction chunks as [|chunk chunks IH]; intros f Hopen Hterm Hhook.
  - simpl. now rewrite !app_nil_r.
  - cbn [dispatched] in *. unfold framer_write in *. cbn [write_chunks].
    replace (framer_terminated f) with false by (symmetry; exact Hopen).
    unfold bind. cbn [createEventStreamTransformer transform].
    unfold framer_transform.
    destruct (feed P (eventSourceParser f) (TextDecoder_decode chunk))
      as [p' evs].
    apply Forall_app in Hterm as [Hterm1 Hterm2].
    apply hook_returns_app in Hhook as [Hhook1 Hhook2].
    destruct (for_each_tokens (controller f) Hterm1 Hopen Hhook1)
      as (c1 & E1 & _ & T1).
    destruct (@for_each_logs evs (controller f) c1 Hterm1 E1) as [Hh Hd].
    rewrite E1.
    destruct (IH {| eventSourceParser := p'; controller := c1 |} T1 Hterm2 Hhook2)
      as [Hh2 Hd2].
    cbn [eventSourceParser controller] in *.
    rewrite Hh2, Hd2, Hh, Hd, <- !app_assoc. split; [|reflexivity].
    f_equal. clear. induction evs as [|[e|v] evs IH]; simpl; [reflexivity| |];
      now rewrite IH.
Qed.

End HookCalls.

(** For a body without termination event and a hook that returns, the
    callback of the parser is called once on each dispatched event, in
    order, and the hook once on each event that carries data, in order,
    retry intervals left out and events whose result is dropped included,
    however the body ends. *)
Theorem hook_called_once_per_event
  (P : EventSourceParser) (hook : AIStreamParser) (b : Body) :
  Forall (fun ev => is_termination ev = false)
    (dispatched P (createParser P) (chunks b)) ->
  hook_returns (Some hook) (dispatched P (createParser P) (chunks b)) ->
  hook_calls (controller (snd (framer_run P (Some hook) b)))
  = parsed_events (dispatched P (createParser P) (chunks b))
  /\ handled (controller (snd (framer_run P (Some hook) b)))
     = dispatched P (createParser P) (chunks b).
Proof.
  intros Hterm Hhook.
  destruct (framer_run_state (Some hook) P b) as (-> & _ & _).
  apply (@write_logs hook P (chunks b) (framer_init P) eq_refl Hterm Hhook).
Qed.

Lemma hook_called_once_per_event_witness :
  let b := {| chunks := [bytes (lines ["data: a"; ""; "retry: 5"; "data:"]);
                         bytes (lines [""; "data: b"; ""])];
              body_end := Closes |} in
  hook_calls (controller (snd (framer_run sse_parser (Some identity_hook) b)))
  = [{| evt_id := None; event := None; data := js "a" |};
     {| evt_id := None; event := None; data := js "" |};
     {| evt_id := None; event := None; data := js "b" |}]
  /\ handled (controller (snd (framer_run sse_parser (Some identity_hook) b)))
     = [plain_event "a"; ReconnectInterval 5; plain_event ""; plain_event "b"].
Proof.
  apply (@hook_called_once_per_event sse_parser identity_hook
           {| chunks := [bytes (lines ["data: a"; ""; "retry: 5"; "data:"]);
                         bytes (lines [""; "data: b"; ""])];
              body_end := Closes |}).
  - vm_compute. repeat constructor.
  - intros f e Hf _. injection Hf as <-. eexists. reflexivity.
Defined.

(** ** No empty token, no empty chunk *)

Lemma utf8_of_code_point_not_empty (cp : N) : utf8_of_code_point cp <> [].
Proof.
  unfold utf8_of_code_point.
  destruct (N.ltb cp 128); [discriminate|].
  destruct (N.ltb cp 2048); [discriminate|].
  destruct (N.ltb cp 65536); discriminate.
Qed.

Lemma encode_not_empty (s : jsstring) : s <> [] -> TextEncoder_encode s <> [].
Proof.
  destruct s as [|c t]; [congruence|]. intros _. rewrite encode_cons.
  assert (H : forall cp l, utf8_of_code_point cp ++ l <> []).
  { intros cp l E. apply app_eq_nil in E as [E _].
    now apply utf8_of_code_point_not_empty in E. }
  destruct (is_high_surrogate c).
  - destruct t as [|d t']; [apply utf8_of_code_point_not_empty|].
    destruct (is_low_surrogate d); apply H.
  - destruct (is_low_surrogate c); apply H.
Qed.

Lemma onParse_not_empty (customParser : option AIStreamParser)
  (ev : ParseEvent) (c : FramerController) :
  Forall (fun m => m <> []) (enqueued c) ->
  Forall (fun m => m <> []) (enqueued (snd (onParse customParser ev c))).
Proof.
  intros H. unfold onParse, bind, note_handled, modify. simpl.
  destruct (is_termination ev); [exact H|].
  destruct ev as [e|v]; [|exact H].
  assert (Henq : forall m c0, enqueued c0 = enqueued c -> truthy m = true ->
                   Forall (fun m => m <> [])
                     (enqueued (snd (controller_enqueue m c0)))).
  { intros m c0 E Hm. unfold controller_enqueue.
    destruct (terminated c0); simpl; rewrite E; [exact H|].
    apply Forall_app. split; [exact H|]. constructor; [|constructor].
    now apply truthy_true. }
  destruct customParser as [f|]; simpl.
  - unfold call_customParser. simpl.
    destruct (f (data e)) as [[m|]|err]; simpl; try exact H.
    destruct (truthy m) eqn:Hm; [now apply Henq | exact H].
  - destruct (truthy (data e)) eqn:Hm; [now apply Henq | exact H].
Qed.

Lemma for_each_not_empty (customParser : option AIStreamParser)
  (evs : list ParseEvent) (c : FramerController) :
  Forall (fun m => m <> []) (enqueued c) ->
  Forall (fun m => m <> [])
    (enqueued (snd (for_each (onParse customParser) evs c))).
Proof.
  revert c. induction evs as [|ev evs IH]; intros c H; [exact H|].
  cbn [for_each]. unfold bind.
  pose proof (onParse_not_empty customParser ev c H) as H1.
  destruct (onParse customParser ev c) as [[[]|e] c1]; [now apply IH | exact H1].
Qed.

Lemma write_not_empty (P : EventSourceParser)
  (customParser : option AIStreamParser) (chunks : list (list byte))
  (f : Framer P) :
  Forall (fun m => m <> []) (enqueued (controller f)) ->
  Forall (fun m => m <> [])
    (enqueued (controller (snd (framer_write customParser chunks f)))).
Proof.
  revert f. induction chunks as [|chunk chunks IH]; intros f H; [exact H|].
  unfold framer_write in *. cbn [write_chunks].
  destruct (framer_terminated f); [exact H|].
  unfold bind. cbn [createEventStreamTransformer transform].
  assert (H1 : Forall (fun m => m <> [])
                 (enqueued (controller
                              (snd (framer_transform P customParser chunk f))))).
  { unfold framer_transform.
    destruct (feed P (eventSourceParser f) (TextDecoder_decode chunk))
      as [p' evs].
    pose proof (for_each_not_empty customParser evs (controller f) H) as H'.
    now destruct (for_each (onParse customParser) evs (controller f)). }
  destruct (framer_transform P customParser chunk f) as [[[]|e] f1];
    [now apply IH | exact H1].
Qed.

(** Whatever the response, the parser, the hook and the callbacks: no
    empty token is ever enqueued by the framer or given to the callbacks
    transformer, [onToken] is never called on an empty string, and no chunk
    of the returned stream is empty. *)
Theorem no_empty_token_or_chunk
  (P : EventSourceParser) (response : Response)
  (customParser : option AIStreamParser)
  (callbacks : option AIStreamCallbacks) (taken : nat) :
  let r := AIStream P response customParser callbacks taken in
  Forall (fun m => m <> []) (enqueued (framing r))
  /\ Forall (fun m => m <> []) (tokens r)
  /\ Forall (fun m => m <> []) (token_calls (callback_trace r))
  /\ Forall (fun chunk => chunk <> []) (output r).
Proof.
  intros r. unfold r, AIStream. destruct (negb (ok response)).
  { destruct (body response) as [b|].
    - destruct (error_stream_start (getReader b)). cbn. auto.
    - cbn. auto. }
  set (b := match body response with
            | Some b => b
            | None => createEmptyReadableStream
            end).
  assert (Hall : Forall (fun m => m <> [])
                   (enqueued (controller (snd (framer_run P customParser b))))).
  { destruct (framer_run_state customParser P b) as (-> & _ & _).
    apply write_not_empty. constructor. }
  assert (Hmsgs : Forall (fun m => m <> [])
                    (fst (framer_readable (framer_run P customParser b) taken))).
  { unfold framer_readable. destruct (fst (framer_run P customParser b));
      [exact Hall|].
    destruct (_ && _); [exact Hall|]. cbn [fst].
    rewrite <- (firstn_skipn taken) in Hall.
    now apply Forall_app in Hall as [H _]. }
  destruct (framer_readable (framer_run P customParser b) taken)
    as [messages upstream]. cbn [fst] in Hmsgs.
  destruct (callbacks_life callbacks messages upstream)
    as (k & cs & _ & Ht & _).
  destruct (run_callbacks callbacks messages upstream) as [t e].
  cbn [fst snd] in Ht. cbn.
  assert (Hk : Forall (fun m => m <> []) (firstn k messages)).
  { rewrite <- (firstn_skipn k) in Hmsgs. now apply Forall_app in Hmsgs as [H _]. }
  repeat split; auto.
  - rewrite Ht, !token_calls_app, flat_map_tokens, token_calls_completions,
      app_nil_r.
    rewrite token_calls_if_supplied by discriminate.
    destruct (onToken (callbacks_or_empty callbacks)); [exact Hk | constructor].
  - rewrite Ht, !enqueued_chunks_app, flat_map_enqueued,
      enqueued_chunks_completions, app_nil_r.
    rewrite enqueued_chunks_if_supplied by discriminate. cbn [app].
    apply Forall_map. eapply Forall_impl; [|exact Hk].
    intros m Hm. now apply encode_not_empty.
Qed.

(** ** [AIStream] on failures *)

(** For a response that is not ok, neither transformer is made: no
    callback is called ([onStart] included), the parser callback and the
    hook are never called, the returned stream is given no chunk and never
    closes as a successful one would; without a body it is errored with the
    fixed message and nothing is read. *)
Theorem not_ok_runs_nothing
  (P : EventSourceParser) (response : Response)
  (customParser : option AIStreamParser)
  (callbacks : option AIStreamCallbacks) (taken : nat) :
  ok response = false ->
  let r := AIStream P response customParser callbacks taken in
  callback_trace r = []
  /\ handled (framing r) = []
  /\ hook_calls (framing r) = []
  /\ output r = []
  /\ ending r <> Closed
  /\ (body response = None ->
      ending r = Errored (Error (js "Response error: No response body"))
      /\ error_reader r = None).
Proof.
  intros Hok. unfold AIStream. rewrite Hok. cbn [negb].
  destruct (body response) as [b|].
  - unfold error_stream_start, bind, reader_read, getReader. cbn.
    destruct (chunks b) as [|value rest]; cbn.
    + destruct (body_end b); cbn; repeat split; auto; discriminate.
    + repeat split; auto; discriminate.
  - cbn. repeat split; auto; discriminate.
Qed.

Lemma not_ok_runs_nothing_witness :
  let r := AIStream sse_parser
             {| ok := false; status := 404;
                body := Some {| chunks := [bytes (lines ["data: x"; ""])];
                                body_end := Closes |} |}
             (Some identity_hook) (Some quiet_callbacks) 0 in
  callback_trace r = []
  /\ handled (framing r) = []
  /\ hook_calls (framing r) = []
  /\ output r = []
  /\ ending r <> Closed.
Proof.
  destruct (@not_ok_runs_nothing sse_parser
              {| ok := false; status := 404;
                 body := Some {| chunks := [bytes (lines ["data: x"; ""])];
                                 body_end := Closes |} |}
              (Some identity_hook) (Some quiet_callbacks) 0%nat eq_refl)
    as (H1 & H2 & H3 & H4 & H5 & _).
  repeat split; assumption.
Defined.

(** For a response that is not ok and has a body, exactly one [read()] is
    made, whatever the body holds.  When it gives a chunk, the error
    carries the marker followed by the decoding of that chunk alone: what
    the body holds after it is left unread and is no part of the message.
    When the body itself is errored before any chunk, the returned stream
    is errored with the error of the body, without the marker. *)
Theorem error_body_is_read_once
  (P : EventSourceParser) (response : Response) (b : Body)
  (customParser : option AIStreamParser)
  (callbacks : option AIStreamCallbacks) (taken : nat) :
  ok response = false ->
  body response = Some b ->
  let r := AIStream P response customParser callbacks taken in
  (exists reader, error_reader r = Some reader /\ reads reader = 1%nat
                  /\ chunks (unread reader) = tl (chunks b))
  /\ (forall value rest,
         chunks b = value :: rest ->
         ending r
         = Errored (Error (js "Response error: " ++ TextDecoder_decode value))
         /\ forall e, ending r = Errored e ->
                      starts_with (message_of e) (js "Response error: ") = true)
  /\ (forall e, chunks b = [] -> body_end b = Errors e -> ending r = Errored e).
Proof.
  intros Hok Hbody. unfold AIStream. rewrite Hok, Hbody. cbn [negb].
  unfold error_stream_start, bind, reader_read, getReader. cbn.
  destruct (chunks b) as [|value rest] eqn:Hc; cbn.
  - destruct (body_end b) as [|e0]; cbn; split.
    + eexists. repeat split. exact Hc.
    + split; [intros v r H; discriminate H | intros e _ H; discriminate H].
    + eexists. repeat split. exact Hc.
    + split; [intros v r H; discriminate H|].
      intros e _ H. now injection H as <-.
  - split; [eexists; repeat split|]. split.
    + intros v r H. injection H as <- <-. split; [reflexivity|].
      intros e E. injection E as <-.
      exact (starts_with_app (js "Response error: ") (TextDecoder_decode value)).
    + intros e H. discriminate H.
Qed.

Lemma error_body_is_read_once_witness :
  let r := AIStream sse_parser
             {| ok := false; status := 429;
                body := Some {| chunks := [bytes "slow "; bytes "down"];
                                body_end := Errors (Error (js "reset")) |} |}
             None None 0 in
  ending r = Errored (Error (js "Response error: slow "))
  /\ forall e, ending r = Errored e ->
               starts_with (message_of e) (js "Response error: ") = true.
Proof.
  destruct (@error_body_is_read_once sse_parser
              {| ok := false; status := 429;
                 body := Some {| chunks := [bytes "slow "; bytes "down"];
                                 body_end := Errors (Error (js "reset")) |} |}
              {| chunks := [bytes "slow "; bytes "down"];
                 body_end := Errors (Error (js "reset")) |}
              None None 0%nat eq_refl eq_refl) as (_ & H & _).
  exact (H (bytes "slow ") [bytes "down"] eq_refl).
Defined.

(** For a response that is ok whose body is errored after its chunks, with
    no termination event before and neither the hook nor a callback
    failing: every event has been framed, the callbacks transformer is
    given the tokens it had taken by then and encodes them, the returned
    stream is errored with the error of the body, and [onCompletion] is not
    called. *)
Theorem body_error_surfaces
  (P : EventSourceParser) (response : Response)
  (customParser : option AIStreamParser)
  (callbacks : option AIStreamCallbacks) (taken : nat) (e : JsError) :
  ok response = true ->
  body_end (body_or_empty response) = Errors e ->
  Forall (fun ev => is_termination ev = false)
    (dispatched P (createParser P) (chunks (body_or_empty response))) ->
  hook_returns customParser
    (dispatched P (createParser P) (chunks (body_or_empty response))) ->
  callbacks_resolve (callbacks_or_empty callbacks) ->
  let r := AIStream P response customParser callbacks taken in
  enqueued (framing r)
  = expected_tokens customParser
      (dispatched P (createParser P) (chunks (body_or_empty response)))
  /\ tokens r = firstn taken (enqueued (framing r))
  /\ output r = map TextEncoder_encode (tokens r)
  /\ ending r = Errored e
  /\ completion_calls (callback_trace r) = [].
Proof.
  intros Hok Hend Hterm Hhook Hres r.
  destruct (@write_tokens customParser P (chunks (body_or_empty response))
              (framer_init P) eq_refl Hterm Hhook) as (f' & E & T & Q).
  assert (Hrun : framer_run P customParser (body_or_empty response)
                 = (Throw e, f')).
  { unfold framer_run, transform_stream, bind.
    cbn [createEventStreamTransformer start flush framer_start modify].
    unfold framer_write in E.
    change {| eventSourceParser := createParser P;
              controller := controller (framer_init P) |}
      with (framer_init P).
    rewrite E.
    replace (framer_terminated f') with false by (symmetry; exact T).
    now rewrite Hend. }
  cbn [framer_init controller enqueued controller_init app] in Q.
  unfold r, AIStream. rewrite Hok. cbn [negb]. fold (body_or_empty response).
  rewrite Hrun. unfold framer_readable. cbn [fst snd]. rewrite T. cbn [andb].
  destruct (run_callbacks_source_errors callbacks
              (firstn taken (enqueued (controller f'))) e Hres)
    as (Hen & Hout & Hcomp).
  destruct (run_callbacks callbacks _ (Errors e)) as [t en].
  cbn [fst snd] in *. cbn. rewrite Q in *. auto.
Qed.

Lemma body_error_surfaces_witness :
  let r := AIStream sse_parser
             {| ok := true; status := 200;
                body := Some {| chunks := [bytes (lines ["data: Hel"; ""]);
                                           bytes (lines ["data: lo"; ""])];
                                body_end := Errors (Error (js "reset")) |} |}
             None (Some quiet_callbacks) 5 in
  enqueued (framing r) = [js "Hel"; js "lo"]
  /\ tokens r = firstn 5 (enqueued (framing r))
  /\ output r = map TextEncoder_encode (tokens r)
  /\ ending r = Errored (Error (js "reset"))
  /\ completion_calls (callback_trace r) = [].
Proof.
  apply (@body_error_surfaces sse_parser
           {| ok := true; status := 200;
              body := Some {| chunks := [bytes (lines ["data: Hel"; ""]);
                                         bytes (lines ["data: lo"; ""])];
                              body_end := Errors (Error (js "reset")) |} |}
           None (Some quiet_callbacks) 5%nat (Error (js "reset"))).
  - reflexivity.
  - reflexivity.
  - vm_compute. repeat constructor.
  - intros f e Hf. discriminate Hf.
  - repeat split; simpl; intros; match goal with
    | H : Some _ = Some _ |- _ => injection H as <-; reflexivity
    end.
Defined.

(** ** [readableFromAsyncIterable]: the end of the iterator, and order *)

(** Once [next()] has reported [done] or has rejected, the stream is
    closed, respectively errored with the same reason, and the iterator is
    never called again: no further [next], and no [return] even when the
    stream is cancelled afterwards. *)
Theorem adapter_stops_at_the_end_of_the_iterator
  (T : Type) (I : AsyncIterator T) (s : AdapterStream I)
  (r : Completion (IteratorResult T)) (it' : iterator_state I)
  (ops : list (StreamOp T)) :
  stream_state s = Readable ->
  queue s = [] ->
  next I (it s) = (r, it') ->
  (forall value, r <> Normal (Value value)) ->
  let s' := stream_run s (Pull :: ops) in
  calls s' = calls s ++ [CallNext]
  /\ stream_state s'
     = match r with
       | Throw e => StreamErrored e
       | _ => StreamClosed
       end
  /\ queue s' = [].
Proof.
  intros Hs Hq Hnext Hr s'.
  assert (E : s' = stream_step s Pull).
  { unfold s', stream_run. cbn [fold_left]. apply stream_run_settled.
    unfold stream_step. rewrite Hs, Hq. unfold adapter_pull. rewrite Hnext.
    destruct r as [[v|]|e]; cbn; try discriminate. now destruct (Hr v). }
  rewrite E. unfold stream_step. rewrite Hs, Hq. unfold adapter_pull.
  rewrite Hnext. destruct r as [[v|]|e]; cbn; auto. now destruct (Hr v).
Qed.

Lemma adapter_stops_at_the_end_of_the_iterator_witness :
  let s' := stream_run (readableFromAsyncIterable counting_iterator)
              ([Pull; Read; Pull; Read; Pull; Read]
               ++ Pull :: [Pull; Cancel cancel_reason; Read; Pull]) in
  calls s' = [CallNext; CallNext; CallNext; CallNext]
  /\ stream_state s' = StreamClosed
  /\ queue s' = [].
Proof.
  apply (@adapter_stops_at_the_end_of_the_iterator N counting_iterator
           (stream_run (readableFromAsyncIterable counting_iterator)
              [Pull; Read; Pull; Read; Pull; Read])
           (Normal Done) 3 [Pull; Cancel cancel_reason; Read; Pull]).
  - reflexivity.
  - reflexivity.
  - reflexivity.
  - intros value H. discriminate H.
Defined.

(** An iterator without a [return] method: whatever is done with the
    stream, [cancel] calls nothing on the iterator, and cancelling a
    readable stream still closes it. *)
Theorem cancel_without_return_calls_nothing
  (T : Type) (I : AsyncIterator T) (ops : list (StreamOp T))
  (reason : JsError) :
  return_ I = None ->
  let s := stream_run (readableFromAsyncIterable I) ops in
  return_calls (calls s) = []
  /\ calls (stream_step s (Cancel reason)) = calls s
  /\ (stream_state s = Readable ->
      stream_state (stream_step s (Cancel reason)) = StreamClosed).
Proof.
  intros Hret s.
  assert (Hstep : forall (s0 : AdapterStream I) op,
             return_calls (calls s0) = [] ->
             return_calls (calls (stream_step s0 op)) = []).
  { intros s0 op H0. unfold stream_step.
    destruct op, (stream_state s0); try exact H0.
    - destruct (queue s0); [|exact H0]. unfold adapter_pull.
      destruct (next I (it s0)) as [[[v|]|e] it']; cbn;
        unfold return_calls; rewrite filter_app; cbn;
        now rewrite app_nil_r.
    - unfold adapter_cancel. now rewrite Hret. }
  assert (Hrun : forall ops0 (s0 : AdapterStream I),
             return_calls (calls s0) = [] ->
             return_calls (calls (stream_run s0 ops0)) = []).
  { unfold stream_run. induction ops0 as [|op ops0 IH]; intros s0 H0;
      cbn [fold_left]; [exact H0|]. apply IH. now apply Hstep. }
  split; [apply Hrun; reflexivity|]. split.
  - unfold stream_step. destruct (stream_state s); try reflexivity.
    unfold adapter_cancel. now rewrite Hret.
  - intros Hs. unfold stream_step. rewrite Hs. unfold adapter_cancel.
    now rewrite Hret.
Qed.

Lemma cancel_without_return_calls_nothing_witness :
  let s := stream_run (readableFromAsyncIterable failing_iterator)
             [Pull; Read; Pull] in
  return_calls (calls s) = []
  /\ calls (stream_step s (Cancel cancel_reason)) = calls s
  /\ (stream_state s = Readable ->
      stream_state (stream_step s (Cancel cancel_reason)) = StreamClosed).
Proof.
  apply (@cancel_without_return_calls_nothing N failing_iterator
           [Pull; Read; Pull] cancel_reason).
  reflexivity.
Defined.

Section Delivery.

Variable T : Type.
Variable I : AsyncIterator T.

Lemma read_values_settled (s : AdapterStream I) (ops : list (StreamOp T)) :
  stream_state s <> Readable -> read_values s ops = [].
Proof.
  intros H. induction ops as [|op ops IH]; cbn [read_values]; [reflexivity|].
  replace (stream_step s op) with s.
  - rewrite IH. destruct op, (stream_state s); try reflexivity. congruence.
  - unfold stream_step. destruct op, (stream_state s); congruence.
Qed.

(** From a readable stream with at most one value queued: what the reads
    give, followed by what is left unread, is what was queued followed by
    the values of the [next] calls made, in order. *)
Lemma delivery (ops : list (StreamOp T)) (s : AdapterStream I) :
  stream_state s = Readable ->
  (List.length (queue s) <= 1)%nat ->
  exists unread added,
    (List.length unread <= 1)%nat
    /\ calls (stream_run s ops) = calls s ++ added
    /\ read_values s ops ++ unread
       = queue s ++ yielded I (it s) (List.length (filter is_next added)).
Proof.
  revert s. induction ops as [|op ops IH]; intros s Hs Hq.
  - exists (queue s), []. cbn. now rewrite !app_nil_r.
  - unfold stream_run. cbn [fold_left read_values].
    fold (stream_run (stream_step s op) ops).
    destruct op as [| |reason].
    + (* Pull *)
      unfold stream_step at 1 2. rewrite Hs.
      destruct (queue s) as [|v q] eqn:Eq.
      * cbn [app]. unfold adapter_pull. rewrite Eq.
        destruct (next I (it s)) as [[[v|]|e] it'] eqn:En.
        -- destruct (IH {| it := it'; stream_state := Readable;
                           queue := [] ++ [v]; calls := calls s ++ [CallNext] |}
                       eq_refl) as (unread & added & Hu & Hc & Hv).
           { cbn. lia. }
           exists unread, (CallNext :: added). split; [exact Hu|].
           cbn [it stream_state queue calls] in *. split.
           ++ rewrite Hc, <- app_assoc. reflexivity.
           ++ rewrite Hv. cbn [filter is_next List.length yielded app].
              now rewrite En.
        -- exists [], [CallNext]. rewrite stream_run_settled by (cbn; discriminate).
           rewrite read_values_settled by (cbn; discriminate).
           cbn [filter is_next List.length yielded app calls]. rewrite En.
           repeat split; auto.
        -- exists [], [CallNext]. rewrite stream_run_settled by (cbn; discriminate).
           rewrite read_values_settled by (cbn; discriminate).
           cbn [filter is_next List.length yielded app calls]. rewrite En.
           repeat split; auto.
      * destruct (IH s Hs) as (unread & added & Hu & Hc & Hv).
        { rewrite Eq. exact Hq. }
        exists unread, added. rewrite Eq in Hv. cbn [app]. auto.
    + (* Read *)
      unfold stream_step at 1 2. rewrite Hs.
      destruct (queue s) as [|v q] eqn:Eq.
      * destruct (IH {| it := it s; stream_state := Readable; queue := tl [];
                        calls := calls s |} eq_refl) as (unread & added & Hu & Hc & Hv).
        { cbn. lia. }
        exists unread, added. cbn in *. auto.
      * assert (q = []) by (destruct q; [reflexivity | cbn in Hq; lia]).
        subst q.
        destruct (IH {| it := it s; stream_state := Readable; queue := tl [v];
                        calls := calls s |} eq_refl) as (unread & added & Hu & Hc & Hv).
        { cbn. lia. }
        exists unread, added. cbn in *. rewrite Hv. auto.
    + (* Cancel *)
      exists (queue s),
        (match return_ I with Some _ => [CallReturn reason] | None => [] end).
      assert (Hst : stream_state (stream_step s (Cancel reason)) = StreamClosed
                    /\ calls (stream_step s (Cancel reason))
                       = calls s ++ match return_ I with
                                    | Some _ => [CallReturn reason]
                                    | None => []
                                    end)
        by (apply cancel_readable; exact Hs).
      destruct Hst as [Hst Hcalls].
      rewrite stream_run_settled by (rewrite Hst; discriminate).
      rewrite read_values_settled by (rewrite Hst; discriminate).
      split; [exact Hq|]. split; [exact Hcalls|].
      destruct (return_ I); cbn; now rewrite ?app_nil_r.
Qed.

End Delivery.

(** The stream gives the values of the iterator in order, none skipped
    and none twice, and no more than one step ahead of its reader: after
    anything done with the stream, what the reads have given, followed by
    at most one value not given (still queued, or dropped by a cancel), is
    exactly the values of the [next] calls made. *)
Theorem adapter_delivers_in_order
  (T : Type) (I : AsyncIterator T) (ops : list (StreamOp T)) :
  let s := stream_run (readableFromAsyncIterable I) ops in
  exists unread,
    (List.length unread <= 1)%nat
    /\ read_values (readableFromAsyncIterable I) ops ++ unread
       = yielded I (iterator_start I)
           (List.length (filter is_next (calls s))).
Proof.
  intros s.
  destruct (delivery ops (readableFromAsyncIterable I) eq_refl)
    as (unread & added & Hu & Hc & Hv).
  { cbn. lia. }
  exists unread. split; [exact Hu|]. unfold s. rewrite Hc. exact Hv.
Qed.

(** ** Chunks that end where a character ends *)










